(** * TokenTextSplitter: a shallow embedding of [tempest/text_splitters/token.py]

    The splitter class of [token.py] is embedded over an interface [Utils]
    that stands for the helpers it imports from
    [tempest.core.text_splitters.utils].  Python integers are [Z], strings
    are [string] (one [ascii] per character), the fragment dictionaries
    built by [_split] are records, and the recursion of [_split] is driven
    by a fuel argument: [None] stands for a call that has not returned
    within that many nested calls. *)

From stdpp Require Import base option list strings gmap.

Local Open Scope Z_scope.

(** ** Data model *)

(** The dictionary [{"text": .., "is_sentence": .., "token_size": ..}]. *)
Record Fragment := mkFragment {
  text : string;
  is_sentence : bool;
  token_size : Z
}.

(** A strategy function, as returned by [split_by_sep(sep)] and
    [split_by_char()]. *)
Definition split_fn : Type := string -> list string.

(** The names imported from [tempest.core.text_splitters.utils]. *)
Class Utils := {
  token : Type;
  tokenizer : string -> list token;
  split_by_sep : string -> split_fn;
  split_by_char : split_fn;
  split_by_fns : string -> list split_fn -> list split_fn -> list string * bool;
  merge_splits : list Fragment -> Z -> Z -> list string
}.

(** The attributes set by [TokenTextSplitter.__init__]. *)
Record TokenTextSplitter := mkSplitter {
  chunk_size : Z;
  chunk_overlap : Z;
  _split_fns : list split_fn;
  _sub_split_fns : list split_fn
}.

(** [ValueError], carrying the two numbers its message reports. *)
Inductive Exception :=
| ValueError (overlap size : Z).

(** Metadata mappings live in a store and documents hold a reference to
    theirs, so that two documents can hold the same mapping. *)
Definition ref : Type := positive.

(** Modelled from the spec: the [Document] class of [tempest.core.document],
    which is imported by [token.py] but not defined there.  Spec, section 3:
    [Document: {text: string, metadata: mapping[string, any]}], read through
    the accessors [get_content] and [get_metadata]; the metadata field is
    the reference to the mapping, not a copy of it. *)
Record Document := mkDocument {
  get_content : string;
  get_metadata : ref
}.

(** A computation over the store of metadata mappings that may fail to
    return. *)
Definition Exec (A : Type) : Type :=
  gmap ref (gmap string string) -> option (A * gmap ref (gmap string string)).

Definition exec_ret {A} (a : A) : Exec A := fun h => Some (a, h).

Definition exec_bind {A B} (m : Exec A) (k : A -> Exec B) : Exec B :=
  fun h => match m h with
           | Some (a, h') => k a h'
           | None => None
           end.

Definition exec_lift {A} (o : option A) : Exec A :=
  fun h => match o with
           | Some a => Some (a, h)
           | None => None
           end.

Notation "'bind' x <~ m 'in' k" := (exec_bind m (fun x => k))
  (at level 10, x name, m at level 100, k at level 200).

(** ** The class, over any implementation of the helpers *)

Section Splitter.
Context `{U : Utils}.

(** [TokenTextSplitter.__init__] *)
Definition __init__ (chunk_size chunk_overlap : Z) (separator : string)
  : Exception + TokenTextSplitter :=
  if chunk_overlap >? chunk_size then inl (ValueError chunk_overlap chunk_size)
  else inr {| chunk_size := chunk_size;
              chunk_overlap := chunk_overlap;
              _split_fns := [split_by_sep separator];
              _sub_split_fns := [split_by_char] |}.

(** [len(tokenizer(text))] *)
Definition token_len (text : string) : Z := Z.of_nat (length (tokenizer text)).

(** One pass of the [for] loop of [_split]: [text_splits] is the list
    being appended to, [recur] is the recursive call. *)
Definition split_step (chunk_size : Z) (recur : string -> option (list Fragment))
    (text_splits : option (list Fragment)) (text_split_by_fns : string)
  : option (list Fragment) :=
  match text_splits with
  | None => None
  | Some text_splits =>
      let split_len := token_len text_split_by_fns in
      if split_len <=? chunk_size then
        Some (text_splits ++
              [ {| text := text_split_by_fns; is_sentence := false;
                   token_size := split_len |} ])
      else
        match recur text_split_by_fns with
        | Some recursive_text_splits => Some (text_splits ++ recursive_text_splits)
        | None => None
        end
  end.

(** [TokenTextSplitter._split] *)
Fixpoint _split (fuel : nat) (self : TokenTextSplitter) (text : string)
  : option (list Fragment) :=
  match fuel with
  | O => None
  | S fuel' =>
      let text_len := token_len text in
      if text_len <=? chunk_size self then
        Some [ {| text := text; is_sentence := true; token_size := text_len |} ]
      else
        let '(text_splits_by_fns, is_sentence) :=
          split_by_fns text (_split_fns self) (_sub_split_fns self) in
        foldl (split_step (chunk_size self) (_split fuel' self)) (Some [])
              text_splits_by_fns
  end.

(** The algorithm of [_split] as the specification words it (section 4.3):
    a text within the budget is one sentence fragment; otherwise every
    sub-text of the strategies, from left to right, contributes either
    itself as a non-sentence fragment or the fragments of its own split. *)
Inductive split_spec (self : TokenTextSplitter) : string -> list Fragment -> Prop :=
| split_spec_fits text :
    token_len text <= chunk_size self ->
    split_spec self text
      [ {| text := text; is_sentence := true; token_size := token_len text |} ]
| split_spec_over text frags :
    chunk_size self < token_len text ->
    subs_spec self (split_by_fns text (_split_fns self) (_sub_split_fns self)).1 frags ->
    split_spec self text frags
with subs_spec (self : TokenTextSplitter) : list string -> list Fragment -> Prop :=
| subs_spec_nil : subs_spec self [] []
| subs_spec_emit sub subs frags :
    token_len sub <= chunk_size self ->
    subs_spec self subs frags ->
    subs_spec self (sub :: subs)
      ({| text := sub; is_sentence := false; token_size := token_len sub |} :: frags)
| subs_spec_recurse sub subs inner frags :
    chunk_size self < token_len sub ->
    split_spec self sub inner ->
    subs_spec self subs frags ->
    subs_spec self (sub :: subs) (inner ++ frags).

Scheme split_spec_mut := Minimality for split_spec Sort Prop
  with subs_spec_mut := Minimality for subs_spec Sort Prop.

(** [TokenTextSplitter.from_text] *)
Definition from_text (fuel : nat) (self : TokenTextSplitter) (text : string)
  : option (list string) :=
  match _split fuel self text with
  | Some splits => Some (merge_splits splits (chunk_size self) (chunk_overlap self))
  | None => None
  end.

(** The inner loop of [from_documents]: one new [Document] per chunk,
    built on the metadata reference read from the source document. *)
Fixpoint append_chunks (document : Document) (texts : list string)
    (chunks : list Document) : Exec (list Document) :=
  match texts with
  | [] => exec_ret chunks
  | text :: texts' =>
      bind metadata <~ exec_ret (get_metadata document) in
      append_chunks document texts'
        (chunks ++ [ {| get_content := text; get_metadata := metadata |} ])
  end.

(** The outer loop of [from_documents]. *)
Fixpoint documents_loop (fuel : nat) (self : TokenTextSplitter)
    (documents : list Document) (chunks : list Document) : Exec (list Document) :=
  match documents with
  | [] => exec_ret chunks
  | document :: documents' =>
      bind texts <~ exec_lift (from_text fuel self (get_content document)) in
      bind chunks' <~ append_chunks document texts chunks in
      documents_loop fuel self documents' chunks'
  end.

(** [TokenTextSplitter.from_documents] *)
Definition from_documents (fuel : nat) (self : TokenTextSplitter)
    (documents : list Document) : Exec (list Document) :=
  documents_loop fuel self documents [].

End Splitter.

(** ** The helpers of [tempest.core.text_splitters.utils]

    That module is not part of the sources at hand; its functions are
    written down from sections 4.1, 4.2 and 4.4 of the specification. *)

(** Modelled from the spec: [tokenizer] of the missing [utils] module.
    Section 4.1: "split on whitespace (word-level tokenization)". *)
Definition spec_tokenizer (text : string) : list string := String.words text.

(** Scanning for a literal separator: [skip] characters of a separator
    that has just been matched are still to be passed over, [cur] is the
    piece read so far. *)
Fixpoint split_sep_go (sep : string) (skip : nat) (cur : string) (s : string)
  : list string :=
  match s with
  | EmptyString => [cur]
  | String c s' =>
      match skip with
      | S skip' => split_sep_go sep skip' cur s'
      | O =>
          if String.prefix sep s
          then cur :: split_sep_go sep (String.length sep - 1) "" s'
          else split_sep_go sep 0 (cur +:+ String c "") s'
      end
  end.

(** Modelled from the spec: [split_by_sep] of the missing [utils] module.
    Section 4.2: "split text on a literal separator string", the pieces
    do not include the separator and "empties must be dropped".  The
    specification is silent on an empty separator; it is taken to mark no
    boundary. *)
Definition spec_split_by_sep (sep : string) : split_fn :=
  fun text =>
    match sep with
    | EmptyString => [text]
    | _ => filter (fun piece => piece <> "") (split_sep_go sep 0 "" text)
    end.

(** Modelled from the spec: [split_by_char] of the missing [utils] module.
    Section 4.2/4.3: the character-level fallback, one piece per
    character. *)
Fixpoint spec_split_by_char (text : string) : list string :=
  match text with
  | EmptyString => []
  | String c s => String c "" :: spec_split_by_char s
  end.

(** "the first strategy producing more than one fragment wins and the loop
    stops" *)
Fixpoint first_split (text : string) (fns : list split_fn) : option (list string) :=
  match fns with
  | [] => None
  | fn :: fns' =>
      let splits := fn text in
      if (1 <? length splits)%nat then Some splits else first_split text fns'
  end.

(** Modelled from the spec: [split_by_fns] of the missing [utils] module.
    Section 4.2: primary strategies first, then the fallback strategies
    under the same rule; "if nothing splits the text at all, return the
    whole text as a single fragment with is_sentence = true (this is the
    only way a fragment can be marked as an atomic, unsplittable
    sentence)". *)
Definition spec_split_by_fns (text : string) (split_fns sub_split_fns : list split_fn)
  : list string * bool :=
  match first_split text split_fns with
  | Some splits => (splits, false)
  | None =>
      match first_split text sub_split_fns with
      | Some splits => (splits, false)
      | None => ([text], true)
      end
  end.

(** Token size of a run of fragments. *)
Definition total_size (frags : list Fragment) : Z :=
  foldr (fun f n => token_size f + n) 0 frags.

(** The chunk string of a run of fragments: "a contiguous reassembly of
    fragments". *)
Definition join (frags : list Fragment) : string :=
  foldr (fun f s => text f +:+ s) "" frags.

(** The backward walk over a closed chunk, most recent fragment first:
    [acc] is the token size gathered so far, [window] the fragments
    gathered so far, already in original order. *)
Fixpoint overlap_go (chunk_overlap acc : Z) (rev_closed window : list Fragment)
  : list Fragment :=
  match rev_closed with
  | [] => window
  | f :: rev_closed' =>
      if acc + token_size f <=? chunk_overlap
      then overlap_go chunk_overlap (acc + token_size f) rev_closed' (f :: window)
      else window
  end.

(** Modelled from the spec: the overlap window of [merge_splits]
    (section 4.4): "walk backward through the fragments just placed in the
    closed chunk, accumulating fragments (most-recent-first) until the
    accumulated token size reaches chunk_overlap, then lay them down in
    original order".  The walk stops before the fragment that would take
    the accumulated size past [chunk_overlap], the reading under which
    section 8 bounds the shared content by [chunk_overlap]. *)
Definition overlap_window (chunk_overlap : Z) (closed : list Fragment) : list Fragment :=
  overlap_go chunk_overlap 0 (rev closed) [].

(** "close the current chunk (emit it)"; an accumulator that holds no
    fragment emits nothing. *)
Definition emit (cur : list Fragment) (chunks : list (list Fragment))
  : list (list Fragment) :=
  match cur with
  | [] => chunks
  | _ :: _ => cur :: chunks
  end.

(** The greedy walk of section 4.4 over the fragments still to place, with
    [cur] the current accumulator.  A fragment that keeps the accumulator
    within [chunk_size] is appended; otherwise the accumulator is closed
    and the next one starts with the overlap window followed by the
    current fragment.  A fragment larger than [chunk_size] on its own gets
    no window: it "is emitted as its own chunk verbatim". *)
Fixpoint merge_go (chunk_size chunk_overlap : Z) (splits cur : list Fragment)
  : list (list Fragment) :=
  match splits with
  | [] => emit cur []
  | f :: splits' =>
      if total_size cur + token_size f <=? chunk_size
      then merge_go chunk_size chunk_overlap splits' (cur ++ [f])
      else
        let seed :=
          if chunk_size <? token_size f then [] else overlap_window chunk_overlap cur in
        emit cur (merge_go chunk_size chunk_overlap splits' (seed ++ [f]))
  end.

(** What a run of fragments closed as a chunk looks like: within
    [chunk_size], or an overlap window followed by the one fragment that
    did not fit the chunk before. *)
Definition chunk_shape (chunk_size chunk_overlap : Z) (chunk : list Fragment) : Prop :=
  total_size chunk <= chunk_size
  \/ exists window f,
       chunk = window ++ [f]
       /\ total_size window <= Z.max 0 chunk_overlap
       /\ token_size f <= chunk_size.

(** The chunks of [merge_splits] as runs of fragments. *)
Definition merge_chunks (splits : list Fragment) (chunk_size chunk_overlap : Z)
  : list (list Fragment) :=
  merge_go chunk_size chunk_overlap splits [].

(** Modelled from the spec: [merge_splits] of the missing [utils] module.
    Section 4.4: greedy accumulation with a backward overlap window; "the
    final partially filled accumulator, if non-empty, is always emitted as
    the last chunk". *)
Definition spec_merge_splits (splits : list Fragment) (chunk_size chunk_overlap : Z)
  : list string :=
  map join (merge_chunks splits chunk_size chunk_overlap).

(** Modelled from the spec: the missing [utils] module as a whole. *)
#[export] Instance SpecUtils : Utils := {|
  token := string;
  tokenizer := spec_tokenizer;
  split_by_sep := spec_split_by_sep;
  split_by_char := spec_split_by_char;
  split_by_fns := spec_split_by_fns;
  merge_splits := spec_merge_splits
|}.

(** The documents [from_documents] builds for one source document whose
    text was split into [texts]. *)
Definition chunk_documents (document : Document) (texts : list string) : list Document :=
  map (fun text => {| get_content := text; get_metadata := get_metadata document |}) texts.

(** A caller's in-place update of the mapping a document refers to. *)
Definition set_metadata (document : Document) (key value : string)
    (h : gmap ref (gmap string string)) : gmap ref (gmap string string) :=
  match h !! get_metadata document with
  | Some m => <[get_metadata document := <[key := value]> m]> h
  | None => h
  end.

(** The separator used by default, two line feeds. *)
Definition default_separator : string :=
  String (Ascii.ascii_of_nat 10) (String (Ascii.ascii_of_nat 10) "").

(** No occurrence of [sep] starts at a character of [piece]. *)
Fixpoint no_sep (sep piece : string) : Prop :=
  match piece with
  | EmptyString => True
  | String _ piece' => String.prefix sep piece = false /\ no_sep sep piece'
  end.

(** No occurrence of [sep] in [cur +:+ rest] starts at a character of
    [cur]. *)
Fixpoint no_sep_in (sep cur rest : string) : Prop :=
  match cur with
  | EmptyString => True
  | String _ cur' => String.prefix sep (cur +:+ rest) = false /\ no_sep_in sep cur' rest
  end.

(** A splitter as [__init__] builds it over the specified helpers. *)
Definition splitter (chunk_size chunk_overlap : Z) : TokenTextSplitter :=
  {| chunk_size := chunk_size;
     chunk_overlap := chunk_overlap;
     _split_fns := [spec_split_by_sep default_separator];
     _sub_split_fns := [spec_split_by_char] |}.

(** Two paragraphs of eight words each. *)
Definition two_paragraphs : string :=
  "a b c d e f g h" +:+ default_separator +:+ "i j k l m n o p".

(** Three short paragraphs, the second ending in a blank. *)
Definition three_paragraphs : string :=
  "x" +:+ default_separator +:+ "y " +:+ default_separator +:+ "a b".

(** A store with one mapping, a document that refers to it, and the
    chunks of its text for a budget of three tokens and an overlap of
    one. *)
Definition example_store : gmap ref (gmap string string) :=
  {[ 1%positive := {[ "filename" := "a.txt" ]} ]}.

Definition example_document : Document :=
  {| get_content := "a b c d e f g"; get_metadata := 1%positive |}.

Definition example_texts : list string := ["a b c "; " c d e "; " e f g"].

(** The specified helpers with the flag of [split_by_fns] always set. *)
Definition flagged_utils : Utils := {|
  token := string;
  tokenizer := spec_tokenizer;
  split_by_sep := spec_split_by_sep;
  split_by_char := spec_split_by_char;
  split_by_fns := fun text fns sub_fns => ((spec_split_by_fns text fns sub_fns).1, true);
  merge_splits := spec_merge_splits
|}.

(** A concrete embedding model for the examples: a text is embedded as
    its length, scores are integers. *)
Definition length_embedding (text : string) : Z := Z.of_nat (String.length text).

Definition integer_mean (scores : list Z) : Z :=
  foldr Z.add 0 scores `div` Z.of_nat (length scores).

(** ** [tempestai/evaluation/knowledge_base_coverage.py]

    The embedding model, [np.mean] and the comparison of floats are
    collaborators of [compute_metric]; they are taken as they come. *)

Module Coverage.

Inductive Error :=
| ValueError.

(** [Literal["cosine", "dot_product", "euclidean"]] *)
Inductive Mode :=
| cosine
| dot_product
| euclidean.

Section ComputeMetric.
Context {Embedding Float : Type}.
Variable get_query_embedding : string -> Embedding.
Variable similarity : Embedding -> Embedding -> Mode -> Float.
Variable mean : list Float -> Float.
Variable ge : Float -> Float -> bool.

(** The fields of [KnowledgeBaseCoverage] next to [embed_model]. *)
Record KnowledgeBaseCoverage := mkCoverage {
  similarity_mode : Mode;
  similarity_threshold : Float
}.

(** The dictionary [compute_metric] returns. *)
Record Metric := mkMetric {
  contexts_score : list Float;
  score : Float;
  passing : bool
}.

(** [KnowledgeBaseCoverage.compute_metric] *)
Definition compute_metric (self : KnowledgeBaseCoverage)
    (contexts : list string) (candidate : string) : Error + Metric :=
  if bool_decide (contexts = []) || bool_decide (candidate = "") then inl ValueError
  else
    let candidate_embedding := get_query_embedding candidate in
    let contexts_score :=
      foldl (fun scores context =>
               let context_embedding := get_query_embedding context in
               scores ++ [similarity candidate_embedding context_embedding
                            (similarity_mode self)])
            [] contexts in
    let score := mean contexts_score in
    inr {| contexts_score := contexts_score;
           score := score;
           passing := ge score (similarity_threshold self) |}.

End ComputeMetric.

End Coverage.

(** ** [tempestai/embeddings/watsonx.py] *)

Module Watsonx.

Inductive Error :=
| ImportError
| ValueError.

(** The values of the keyword arguments given to [WatsonxEmbeddings]. *)
Inductive Value :=
| NoneValue
| Str (s : string)
| Params (truncate_input_tokens : Z) (input_text : bool)
| Credentials (api_key url : string).

(** The fields of [WatsonxEmbedding]. *)
Record WatsonxEmbedding := mkWatsonx {
  model_name : string;
  api_key : string;
  url : string;
  truncate_input_tokens : Z;
  project_id : option string;
  space_id : option string
}.

(** Truth value of an optional string: [None] and [""] are false. *)
Definition truthy (o : option string) : bool :=
  match o with
  | Some s => negb (bool_decide (s = ""))
  | None => false
  end.

Definition value_of (o : option string) : Value :=
  match o with
  | Some s => Str s
  | None => NoneValue
  end.

(** [WatsonxEmbedding.__init__], after the fields are set: [installed]
    tells whether [ibm_watsonx_ai] can be imported; the result is the
    dictionary [kwargs_params] the client is built from. *)
Definition __init__ (installed : bool) (self : WatsonxEmbedding)
  : Error + gmap string Value :=
  if negb installed then inl ImportError
  else if negb (truthy (project_id self)) && negb (truthy (space_id self))
  then inl ValueError
  else
    let kwargs_params : gmap string Value :=
      <["credentials" := Credentials (api_key self) (url self)]>
        (<["params" := Params (truncate_input_tokens self) false]>
           (<["model_id" := Str (model_name self)]> ∅)) in
    if truthy (project_id self)
    then inr (<["project_id" := value_of (project_id self)]> kwargs_params)
    else inr (<["space_id" := value_of (space_id self)]> kwargs_params).

End Watsonx.

(** ** [tempestai/vector_stores/chroma.py]

    The collection is a collaborator: the calls made to it are recorded
    in order, and what it answers to a query is taken as it comes.
    [uuid4 n] is the text of the [n]-th identifier drawn from
    [uuid.uuid4()]. *)

Module Chroma.

Inductive Error :=
| ImportError
| ValueError
| IndexError.

(** What the store reads of a [Document]: [doc_id], [get_content()] and
    [get_metadata()]. *)
Record Document := mkDocument {
  doc_id : option string;
  get_content : string;
  get_metadata : option (gmap string string)
}.

(** Truth value of an optional string: [None] and [""] are false. *)
Definition truthy (o : option string) : bool :=
  match o with
  | Some s => negb (bool_decide (s = ""))
  | None => false
  end.

(** Truth value of a metadata mapping: [None] and [{}] are false. *)
Definition truthy_metadata (o : option (gmap string string)) : bool :=
  match o with
  | Some m => negb (bool_decide (m = ∅))
  | None => false
  end.

Section Store.
Context {Embedding Distance : Type}.
Variable uuid4 : nat -> string.
Variable get_query_embedding : string -> Embedding.

(** The dictionary answered by [collection.query]. *)
Record QueryResult := mkQueryResult {
  ids : list (list string);
  documents : list (list string);
  metadatas : list (list (option (gmap string string)));
  distances : list (list Distance)
}.

Variable collection_query : Embedding -> Z -> QueryResult.

(** The calls made to the client and to the collection. *)
Inductive Call :=
| GetOrCreateCollection (name hnsw_space : string)
| Add (embeddings : list Embedding) (ids : list string)
      (metadatas : list (option (gmap string string))) (documents : list string)
| Query (query_embeddings : Embedding) (n_results : Z)
| Delete (ids : list string).

Record World := mkWorld {
  uuids_drawn : nat;
  calls : list Call
}.

(** [str(uuid.uuid4())] *)
Definition draw (w : World) : string * World :=
  (uuid4 (uuids_drawn w), {| uuids_drawn := S (uuids_drawn w); calls := calls w |}).

Definition call (c : Call) (w : World) : World :=
  {| uuids_drawn := uuids_drawn w; calls := calls w ++ [c] |}.

(** The arguments of [DocumentWithScore(document=Document(doc_id=..,
    text=.., metadata=..), score=..)]. *)
Record DocumentWithScore := mkDocumentWithScore {
  found_id : string;
  found_text : string;
  found_metadata : option (gmap string string);
  found_score : Distance
}.

(** [ChromaVectorStore.__init__]: the result is the name of the
    collection held in [self._collection]. *)
Definition __init__ (installed : bool) (collection_name : option string)
    (distance_strategy : string) (w : World) : (Error + string) * World :=
  if negb installed then (inl ImportError, w)
  else if bool_decide (distance_strategy ∈ ["cosine"; "ip"; "l2"]) then
    let '(collection_name, w) :=
      match collection_name with
      | None =>
          let '(uuid, w) := draw w in
          ("auto-generated-" +:+ String.substring 0 8 uuid, w)
      | Some name => (name, w)
      end in
    (inr collection_name, call (GetOrCreateCollection collection_name distance_strategy) w)
  else (inl ValueError, w).

(** The [for] loop of [add_documents], over the four lists it fills. *)
Fixpoint add_loop (documents : list Document) (embeddings : list Embedding)
    (metadatas : list (option (gmap string string))) (ids chroma_documents : list string)
    (w : World)
  : list Embedding * list (option (gmap string string)) * list string * list string * World :=
  match documents with
  | [] => (embeddings, metadatas, ids, chroma_documents, w)
  | doc :: documents' =>
      let embeddings := embeddings ++ [get_query_embedding (get_content doc)] in
      let metadatas :=
        metadatas ++ [if truthy_metadata (get_metadata doc) then get_metadata doc else None] in
      let '(id, w) :=
        if truthy (doc_id doc) then (default "" (doc_id doc), w) else draw w in
      let ids := ids ++ [id] in
      let chroma_documents := chroma_documents ++ [get_content doc] in
      add_loop documents' embeddings metadatas ids chroma_documents w
  end.

(** [ChromaVectorStore.add_documents] *)
Definition add_documents (documents : list Document) (w : World) : list string * World :=
  let '(embeddings, metadatas, ids, chroma_documents, w) :=
    add_loop documents [] [] [] [] w in
  (ids, call (Add embeddings ids metadatas chroma_documents) w).

(** [x[0]] on a list. *)
Definition first {A} (l : list A) : Error + A :=
  match l with
  | [] => inl IndexError
  | x :: _ => inr x
  end.

(** [zip] of four lists: as long as the shortest. *)
Fixpoint zip4 (a b : list string) (c : list (option (gmap string string)))
    (d : list Distance) : list DocumentWithScore :=
  match a, b, c, d with
  | x :: a', y :: b', z :: c', t :: d' =>
      {| found_id := x; found_text := y; found_metadata := z; found_score := t |}
      :: zip4 a' b' c' d'
  | _, _, _, _ => []
  end.

(** [ChromaVectorStore.query] *)
Definition query (query : string) (top_k : Z) (w : World)
  : (Error + list DocumentWithScore) * World :=
  let query_embedding := get_query_embedding query in
  let results := collection_query query_embedding top_k in
  let w := call (Query query_embedding top_k) w in
  match first (ids results) with
  | inl e => (inl e, w)
  | inr ids0 =>
      match first (documents results) with
      | inl e => (inl e, w)
      | inr documents0 =>
          match first (metadatas results) with
          | inl e => (inl e, w)
          | inr metadatas0 =>
              match first (distances results) with
              | inl e => (inl e, w)
              | inr distances0 => (inr (zip4 ids0 documents0 metadatas0 distances0), w)
              end
          end
      end
  end.

(** [ChromaVectorStore.delete_documents] *)
Definition delete_documents (ids : option (list string)) (w : World)
  : (Error + unit) * World :=
  match ids with
  | None | Some [] => (inl ValueError, w)
  | Some ids => (inr tt, call (Delete ids) w)
  end.

End Store.

End Chroma.

(** ** [tempest/vector_stores/elasticsearch.py]

    The client is a collaborator.  Of its state only the indices that
    exist are kept, with their mappings: [indices.exists] looks a name up
    and [indices.create] enters it.  The other calls made to it are
    recorded in order, and what it answers to a search is taken as it
    comes. *)

Module Elasticsearch.

Inductive Error :=
| ValueError
| KeyError (key : string).

(** A value of a metadata mapping. *)
Inductive MetaValue :=
| MNone
| MStr (s : string)
| MInt (n : Z).

(** Truth value: [None], [""] and [0] are false. *)
Definition truthy_value (v : MetaValue) : bool :=
  match v with
  | MNone => false
  | MStr s => negb (bool_decide (s = ""))
  | MInt n => negb (bool_decide (n = 0))
  end.

Definition truthy (o : option string) : bool :=
  match o with
  | Some s => negb (bool_decide (s = ""))
  | None => false
  end.

(** What the store reads of a [Document]. *)
Record Document := mkDocument {
  doc_id : option string;
  get_content : string;
  get_metadata : gmap string MetaValue
}.

(** One entry of the [properties] of an index mapping. *)
Inductive FieldMapping :=
| TextField
| DenseVector (dims : Z) (index : bool) (similarity : string)
| MetadataProperties.

(** The attributes set by [ElasticsearchVectorStore.__init__]. *)
Record ElasticsearchVectorStore := mkStore {
  index_name : string;
  batch_size : Z;
  dims_length : option Z;
  distance_strategy : string;
  vector_field : string;
  text_field : string
}.

Section Store.
Context {Embedding Score : Type}.
Variable uuid4 : nat -> string.
Variable get_query_embedding : string -> Embedding.

(** A value of an action sent to [bulk], or of the [_source] of a hit. *)
Inductive Value :=
| Null
| Text (s : string)
| Number (n : Z)
| Vector (v : Embedding)
| Mapping (m : gmap string MetaValue).

Definition of_meta (v : MetaValue) : Value :=
  match v with
  | MNone => Null
  | MStr s => Text s
  | MInt n => Number n
  end.

(** The [knn] argument of [search]. *)
Record Knn := mkKnn {
  field : string;
  query_vector : Embedding;
  k : Z;
  num_candidates : Z
}.

Record Hit := mkHit {
  _id : string;
  _source : gmap string Value;
  _score : Score
}.

(** [results["hits"]["hits"]] for a search on an index. *)
Variable search : string -> Knn -> Z -> list string -> list Hit.

Inductive Call :=
| Bulk (actions : list (gmap string Value)) (chunk_size : Z)
| Search (index : string) (knn : Knn) (size : Z) (excludes : list string)
| DeleteDoc (index id : string).

Record World := mkWorld {
  indices : gmap string (gmap string FieldMapping);
  uuids_drawn : nat;
  calls : list Call
}.

Definition draw (w : World) : string * World :=
  (uuid4 (uuids_drawn w),
   {| indices := indices w; uuids_drawn := S (uuids_drawn w); calls := calls w |}).

Definition call (c : Call) (w : World) : World :=
  {| indices := indices w; uuids_drawn := uuids_drawn w; calls := calls w ++ [c] |}.

(** The arguments of [DocumentWithScore(document=Document(doc_id=..,
    text=.., metadata=..), score=..)]. *)
Record DocumentWithScore := mkDocumentWithScore {
  found_id : string;
  found_text : Value;
  found_metadata : Value;
  found_score : Score
}.

(** The dictionary [index_mappings["properties"]]; a later key of the
    literal replaces an equal earlier one. *)
Definition index_mappings (self : ElasticsearchVectorStore) (dims : Z)
  : gmap string FieldMapping :=
  <["metadata" := MetadataProperties]>
    (<[vector_field self := DenseVector dims true (distance_strategy self)]>
       (<[text_field self := TextField]> ∅)).

(** [ElasticsearchVectorStore._create_index_if_not_exists] *)
Definition _create_index_if_not_exists (self : ElasticsearchVectorStore) (w : World)
  : (Error + unit) * World :=
  match indices w !! index_name self with
  | Some _ => (inr tt, w)
  | None =>
      match dims_length self with
      | None => (inl ValueError, w)
      | Some dims =>
          (inr tt,
           {| indices := <[index_name self := index_mappings self dims]> (indices w);
              uuids_drawn := uuids_drawn w;
              calls := calls w |})
      end
  end.

(** [_metadata[key] if _metadata[key] else None] *)
Definition item_or_none (_metadata : gmap string MetaValue) (key : string)
  : Error + Value :=
  match _metadata !! key with
  | None => inl (KeyError key)
  | Some v => inr (if truthy_value v then of_meta v else Null)
  end.

(** The dictionary appended to [vector_store_data] for one document. *)
Definition action (self : ElasticsearchVectorStore) (_id : string) (doc : Document)
  : Error + gmap string Value :=
  let _metadata := get_metadata doc in
  match item_or_none _metadata "creation_date" with
  | inl e => inl e
  | inr creation_date =>
  match item_or_none _metadata "filename" with
  | inl e => inl e
  | inr filename =>
  match item_or_none _metadata "file_type" with
  | inl e => inl e
  | inr file_type =>
  match item_or_none _metadata "page" with
  | inl e => inl e
  | inr page =>
      inr (<["metadata.page" := page]>
          (<["metadata.file_type" := file_type]>
          (<["metadata.filename" := filename]>
          (<["metadata.creation_date" := creation_date]>
          (<["metadata" := Mapping _metadata]>
          (<[vector_field self := Vector (get_query_embedding (get_content doc))]>
          (<[text_field self := Text (get_content doc)]>
          (<["_id" := Text _id]>
          (<["_index" := Text (index_name self)]> ∅)))))))))
  end end end end.

(** The [for] loop of [add_documents]. *)
Fixpoint add_loop (self : ElasticsearchVectorStore) (documents : list Document)
    (vector_store_data : list (gmap string Value)) (w : World)
  : (Error + list (gmap string Value)) * World :=
  match documents with
  | [] => (inr vector_store_data, w)
  | doc :: documents' =>
      let '(_id, w) :=
        if truthy (doc_id doc) then (default "" (doc_id doc), w) else draw w in
      match action self _id doc with
      | inl e => (inl e, w)
      | inr a => add_loop self documents' (vector_store_data ++ [a]) w
      end
  end.

(** [ElasticsearchVectorStore.add_documents] *)
Definition add_documents (self : ElasticsearchVectorStore) (documents : list Document)
    (create_index_if_not_exists : bool) (w : World) : (Error + unit) * World :=
  let '(created, w) :=
    if create_index_if_not_exists then _create_index_if_not_exists self w
    else (inr tt, w) in
  match created with
  | inl e => (inl e, w)
  | inr _ =>
      let '(data, w) := add_loop self documents [] w in
      match data with
      | inl e => (inl e, w)
      | inr vector_store_data =>
          (inr tt, call (Bulk vector_store_data (batch_size self)) w)
      end
  end.

(** [hit["_source"][key]] *)
Definition source_item (hit : Hit) (key : string) : Error + Value :=
  match _source hit !! key with
  | None => inl (KeyError key)
  | Some v => inr v
  end.

(** The list comprehension of [query]. *)
Fixpoint read_hits (hits : list Hit) : Error + list DocumentWithScore :=
  match hits with
  | [] => inr []
  | hit :: hits' =>
      match source_item hit "text" with
      | inl e => inl e
      | inr text =>
          match source_item hit "metadata" with
          | inl e => inl e
          | inr metadata =>
              match read_hits hits' with
              | inl e => inl e
              | inr found =>
                  inr ({| found_id := _id hit; found_text := text;
                          found_metadata := metadata; found_score := _score hit |}
                       :: found)
              end
          end
      end
  end.

(** [ElasticsearchVectorStore.query] *)
Definition query (self : ElasticsearchVectorStore) (query : string) (top_k : Z)
    (w : World) : (Error + list DocumentWithScore) * World :=
  let query_embedding := get_query_embedding query in
  let knn := {| field := vector_field self; query_vector := query_embedding;
                k := top_k; num_candidates := top_k * 10 |} in
  let hits := search (index_name self) knn top_k [vector_field self] in
  (read_hits hits, call (Search (index_name self) knn top_k [vector_field self]) w).

(** [ElasticsearchVectorStore.delete_documents] *)
Definition delete_documents (self : ElasticsearchVectorStore) (ids : option (list string))
    (w : World) : (Error + unit) * World :=
  match ids with
  | None | Some [] => (inl ValueError, w)
  | Some ids =>
      (inr tt, foldl (fun w id => call (DeleteDoc (index_name self) id) w) w ids)
  end.

End Store.

End Elasticsearch.

(** The identifiers a run of documents ends up with when [n] identifiers
    have been drawn so far: its own when a document has one, the next
    one drawn otherwise. *)
Fixpoint assigned_ids (uuid4 : nat -> string) (n : nat) (ids : list (option string))
  : list string :=
  match ids with
  | [] => []
  | Some id :: ids' =>
      if bool_decide (id = "") then uuid4 n :: assigned_ids uuid4 (S n) ids'
      else id :: assigned_ids uuid4 n ids'
  | None :: ids' => uuid4 n :: assigned_ids uuid4 (S n) ids'
  end.

(** The documents of a run that come without an identifier. *)
Definition without_id (documents : list Chroma.Document) : list Chroma.Document :=
  filter (fun doc => Chroma.truthy (Chroma.doc_id doc) = false) documents.

(** The metadata keys [add_documents] of the Elasticsearch store reads. *)
Definition required_keys : list string :=
  ["creation_date"; "filename"; "file_type"; "page"].

Definition has_required_keys (doc : Elasticsearch.Document) : Prop :=
  Forall (fun key => is_Some (Elasticsearch.get_metadata doc !! key)) required_keys.

(** Collaborators for the examples: identifiers [u0], [u1], ..., a
    collection that answers two identifiers, three texts, two mappings and
    two distances, and a search that answers one hit filed under
    [content]. *)
Definition example_uuid4 (n : nat) : string :=
  "u" +:+ String (Ascii.ascii_of_nat (48 + n)) "".

Definition example_collection_query (_ : Z) (_ : Z) : @Chroma.QueryResult Z :=
  Chroma.mkQueryResult [["id1"; "id2"]] [["one"; "two"; "three"]] [[None; None]] [[1; 2]].

Definition example_search (_ : string) (_ : @Elasticsearch.Knn Z) (_ : Z) (_ : list string)
  : list (@Elasticsearch.Hit Z Z) :=
  [Elasticsearch.mkHit "id1" {[ "content" := Elasticsearch.Text "one" ]} 1].

(** A search that answers one hit with [text] and [metadata]. *)
Definition example_search_text (_ : string) (_ : @Elasticsearch.Knn Z) (_ : Z)
    (_ : list string) : list (@Elasticsearch.Hit Z Z) :=
  [Elasticsearch.mkHit "id1"
     {[ "text" := Elasticsearch.Text "one"; "metadata" := Elasticsearch.Mapping ∅ ]} 1].

Definition example_es_store : Elasticsearch.ElasticsearchVectorStore :=
  Elasticsearch.mkStore "idx" 200 (Some 3) "cosine" "embedding" "content".

Definition example_es_document : Elasticsearch.Document :=
  Elasticsearch.mkDocument (Some "d1") "one"
    {[ "creation_date" := Elasticsearch.MStr "2024";
       "filename" := Elasticsearch.MStr "a.txt";
       "file_type" := Elasticsearch.MStr "";
       "page" := Elasticsearch.MInt 0 ]}.

(** ** Facts that hold for any implementation of the helpers *)

Section SplitterFacts.
Context `{U : Utils}.

Implicit Types (self : TokenTextSplitter) (frags : list Fragment).

Lemma foldl_split_step_None cs recur subs :
  foldl (split_step cs recur) None subs = None.
Proof. induction subs as [|sub subs IH]; [done | exact IH]. Qed.

(** The list being appended to is a prefix of the result of the loop. *)
Lemma foldl_split_step_app cs recur subs acc :
  foldl (split_step cs recur) (Some acc) subs
  = (fun r => acc ++ r) <$> foldl (split_step cs recur) (Some []) subs.
Proof.
  revert acc. induction subs as [|sub subs IH]; intros acc; simpl.
  { by rewrite app_nil_r. }
  destruct (token_len sub <=? cs).
  - rewrite IH, (IH [_]).
    destruct (foldl _ (Some []) subs) as [r|]; simpl; [|done].
    by rewrite <- app_assoc.
  - destruct (recur sub) as [inner|].
    + rewrite IH, (IH inner).
      destruct (foldl _ (Some []) subs) as [r|]; simpl; [|done].
      by rewrite <- app_assoc.
    + by rewrite foldl_split_step_None.
Qed.

(** The loop, one sub-text at a time. *)
Lemma foldl_split_step_cons cs recur sub subs :
  foldl (split_step cs recur) (Some []) (sub :: subs)
  = if token_len sub <=? cs then
      (fun r => {| text := sub; is_sentence := false; token_size := token_len sub |} :: r)
        <$> foldl (split_step cs recur) (Some []) subs
    else
      match recur sub with
      | Some inner => (fun r => inner ++ r) <$> foldl (split_step cs recur) (Some []) subs
      | None => None
      end.
Proof.
  simpl. destruct (token_len sub <=? cs).
  - by rewrite foldl_split_step_app.
  - destruct (recur sub) as [inner|].
    + by rewrite foldl_split_step_app.
    + by rewrite foldl_split_step_None.
Qed.

Lemma foldl_split_step_mono cs (recur recur' : string -> option (list Fragment)) subs frags :
  (forall sub inner, recur sub = Some inner -> recur' sub = Some inner) ->
  foldl (split_step cs recur) (Some []) subs = Some frags ->
  foldl (split_step cs recur') (Some []) subs = Some frags.
Proof.
  intros Hrec. revert frags. induction subs as [|sub subs IH]; intros frags; [done|].
  rewrite !foldl_split_step_cons.
  destruct (token_len sub <=? cs).
  - destruct (foldl (split_step cs recur) _ subs) as [r|]; simpl; [|done].
    intros [= <-]. by rewrite (IH r).
  - destruct (recur sub) as [inner|] eqn:Hin; [|done].
    rewrite (Hrec _ _ Hin).
    destruct (foldl (split_step cs recur) _ subs) as [r|]; simpl; [|done].
    intros [= <-]. by rewrite (IH r).
Qed.

(** More fuel does not change a result. *)
Lemma _split_mono fuel fuel' self text frags :
  (fuel <= fuel')%nat ->
  _split fuel self text = Some frags -> _split fuel' self text = Some frags.
Proof.
  revert fuel' text frags. induction fuel as [|fuel IH]; intros fuel' text frags Hle; [done|].
  destruct fuel' as [|fuel']; [lia|]. simpl.
  destruct (token_len text <=? chunk_size self); [done|].
  destruct (split_by_fns text _ _) as [subs b].
  apply foldl_split_step_mono. intros sub inner. apply IH. lia.
Qed.

(** A property of fragments that the emitted and the recursive fragments
    have is had by every fragment of the loop. *)
Lemma foldl_split_step_Forall (P : Fragment -> Prop) cs recur subs frags :
  (forall sub, token_len sub <= cs ->
     P {| text := sub; is_sentence := false; token_size := token_len sub |}) ->
  (forall sub inner, cs < token_len sub -> recur sub = Some inner -> Forall P inner) ->
  foldl (split_step cs recur) (Some []) subs = Some frags ->
  Forall P frags.
Proof.
  intros Hemit Hrec. revert frags.
  induction subs as [|sub subs IH]; intros frags.
  { intros [= <-]. constructor. }
  rewrite foldl_split_step_cons.
  destruct (Z.leb_spec (token_len sub) cs) as [Hle|Hgt].
  - destruct (foldl _ _ subs) as [r|]; simpl; [|done].
    intros [= <-]. constructor; [by apply Hemit | by apply IH].
  - destruct (recur sub) as [inner|] eqn:Hin; [|done].
    destruct (foldl _ _ subs) as [r|]; simpl; [|done].
    intros [= <-]. apply Forall_app. split; [by eapply Hrec | by apply IH].
Qed.

(** *** Construction *)

(** C10: construction succeeds for every pair of integers with
    [chunk_overlap <= chunk_size], whatever their sign, and stores them
    unchanged next to the two strategy lists; nothing else is checked. *)
Theorem init_accepts_overlap_up_to_size cs co sep :
  co <= cs ->
  __init__ cs co sep
  = inr {| chunk_size := cs; chunk_overlap := co;
           _split_fns := [split_by_sep sep]; _sub_split_fns := [split_by_char] |}.
Proof.
  intros Hle. unfold __init__. rewrite Z.gtb_ltb.
  destruct (Z.ltb_spec cs co) as [Hlt|_]; [lia | done].
Qed.

(** C1, amended: construction raises [ValueError] exactly when
    [chunk_overlap > chunk_size], and returns a splitter exactly when
    [chunk_overlap <= chunk_size], equality included. *)
Theorem init_fails_iff_overlap_larger cs co sep :
  (cs < co <-> __init__ cs co sep = inl (ValueError co cs)) /\
  (co <= cs <-> exists self, __init__ cs co sep = inr self).
Proof.
  unfold __init__. rewrite Z.gtb_ltb. destruct (Z.ltb_spec cs co) as [Hlt|Hge].
  - split; split; try done; [lia | by intros [self ?]].
  - split; split; try done; [lia | eauto].
Qed.

(** *** The recursive splitter *)

Lemma foldl_split_step_spec self fuel subs frags :
  (forall text inner, _split fuel self text = Some inner -> split_spec self text inner) ->
  foldl (split_step (chunk_size self) (_split fuel self)) (Some []) subs = Some frags ->
  subs_spec self subs frags.
Proof.
  intros Hrec. revert frags. induction subs as [|sub subs IH]; intros frags.
  { intros [= <-]. constructor. }
  rewrite foldl_split_step_cons.
  destruct (Z.leb_spec (token_len sub) (chunk_size self)) as [Hle|Hgt].
  - destruct (foldl _ _ subs) as [r|]; simpl; [|done].
    intros [= <-]. constructor; [done | by apply IH].
  - destruct (_split fuel self sub) as [inner|] eqn:Hin; [|done].
    destruct (foldl _ _ subs) as [r|]; simpl; [|done].
    intros [= <-]. apply subs_spec_recurse; [done | by apply Hrec | by apply IH].
Qed.

Lemma _split_sound fuel self text frags :
  _split fuel self text = Some frags -> split_spec self text frags.
Proof.
  revert text frags. induction fuel as [|fuel IH]; intros text frags; [done|].
  simpl. destruct (Z.leb_spec (token_len text) (chunk_size self)) as [Hle|Hgt].
  - intros [= <-]. by constructor.
  - intros Hloop. apply split_spec_over; [done|].
    destruct (split_by_fns text _ _) as [subs b]. simpl.
    by eapply foldl_split_step_spec.
Qed.

Lemma _split_complete self text frags :
  split_spec self text frags -> exists fuel, _split fuel self text = Some frags.
Proof.
  revert text frags.
  apply (split_spec_mut self
    (fun text frags => exists fuel, _split fuel self text = Some frags)
    (fun subs frags =>
       exists fuel,
         foldl (split_step (chunk_size self) (_split fuel self)) (Some []) subs
         = Some frags)).
  - intros text Hle. exists 1%nat. simpl.
    destruct (Z.leb_spec (token_len text) (chunk_size self)); [done | lia].
  - intros text frags Hgt _ [fuel Hloop]. exists (S fuel). simpl.
    destruct (Z.leb_spec (token_len text) (chunk_size self)); [lia|].
    by destruct (split_by_fns text _ _) as [subs b].
  - by exists 0%nat.
  - intros sub subs frags Hle _ [fuel Hloop]. exists fuel.
    rewrite foldl_split_step_cons.
    destruct (Z.leb_spec (token_len sub) (chunk_size self)); [|lia].
    by rewrite Hloop.
  - intros sub subs inner frags Hgt _ [fuel1 Hin] _ [fuel2 Hloop].
    exists (fuel1 `max` fuel2)%nat.
    rewrite foldl_split_step_cons.
    destruct (Z.leb_spec (token_len sub) (chunk_size self)); [lia|].
    rewrite (_split_mono fuel1 _ self sub inner); [|lia|done].
    erewrite foldl_split_step_mono; [done| |exact Hloop].
    intros s i. apply _split_mono. lia.
Qed.

(** C4: [_split] computes exactly what the specified algorithm describes.
    A call returns [frags] (with enough nested calls allowed) if and only
    if [frags] is derived by the rules of the specification: one sentence
    fragment for a text within the budget, and otherwise, sub-text by
    sub-text from left to right, a non-sentence fragment or the fragments
    of the recursive split, appended in place. *)
Theorem _split_follows_spec self text frags :
  (exists fuel, _split fuel self text = Some frags) <-> split_spec self text frags.
Proof.
  split.
  - intros [fuel Hrun]. by eapply _split_sound.
  - apply _split_complete.
Qed.

(** C9: when the text is over the budget, no fragment returned by [_split]
    is marked as a sentence. *)
Theorem _split_over_budget_no_sentence fuel self text frags :
  chunk_size self < token_len text ->
  _split fuel self text = Some frags ->
  Forall (fun f => is_sentence f = false) frags.
Proof.
  revert text frags. induction fuel as [|fuel IH]; intros text frags Hover; [done|].
  simpl. destruct (Z.leb_spec (token_len text) (chunk_size self)); [lia|].
  destruct (split_by_fns text _ _) as [subs b].
  apply foldl_split_step_Forall; [done|].
  intros sub inner Hsub Hin. by eapply IH.
Qed.

(** Every fragment carries the token count of its own text, and that
    count is within the budget: [_split] has no path that emits a
    fragment over [chunk_size]. *)
Lemma _split_fragments_fit fuel self txt frags :
  _split fuel self txt = Some frags ->
  Forall (fun f => token_size f = token_len (text f)
                   /\ token_size f <= chunk_size self) frags.
Proof.
  revert txt frags. induction fuel as [|fuel IH]; intros txt frags; [done|].
  simpl. destruct (Z.leb_spec (token_len txt) (chunk_size self)).
  { intros [= <-]. by repeat constructor. }
  destruct (split_by_fns txt _ _) as [subs b].
  apply foldl_split_step_Forall; [done|].
  intros sub inner _ Hin. by eapply IH.
Qed.

(** A text over the budget that the strategies return whole is split
    again, and again: the call never returns. *)
Lemma _split_unsplittable_diverges self text :
  chunk_size self < token_len text ->
  (split_by_fns text (_split_fns self) (_sub_split_fns self)).1 = [text] ->
  forall fuel, _split fuel self text = None.
Proof.
  intros Hover Hwhole fuel. induction fuel as [|fuel IH]; [done|].
  simpl. destruct (Z.leb_spec (token_len text) (chunk_size self)); [lia|].
  destruct (split_by_fns text _ _) as [subs b]. simpl in Hwhole. subst subs.
  simpl. destruct (Z.leb_spec (token_len text) (chunk_size self)); [lia|].
  by rewrite IH.
Qed.

(** *** Documents *)

Lemma append_chunks_run document texts chunks h :
  append_chunks document texts chunks h
  = Some (chunks ++ chunk_documents document texts, h).
Proof.
  revert chunks. induction texts as [|t texts IH]; intros chunks; simpl.
  { by rewrite app_nil_r. }
  unfold exec_bind, exec_ret. rewrite IH. by rewrite <- app_assoc.
Qed.

Lemma documents_loop_run fuel self documents textss chunks h :
  Forall2 (fun d texts => from_text fuel self (get_content d) = Some texts)
          documents textss ->
  documents_loop fuel self documents chunks h
  = Some (chunks ++ concat (zip_with chunk_documents documents textss), h).
Proof.
  intros Hall. revert chunks.
  induction Hall as [|d texts documents textss Hd _ IH]; intros chunks; simpl.
  { by rewrite app_nil_r. }
  unfold exec_bind at 1. unfold exec_lift. rewrite Hd.
  unfold exec_bind at 1. rewrite append_chunks_run.
  rewrite IH. by rewrite <- app_assoc.
Qed.

(** C8: when the text of each input document splits into the chunks
    [texts], [from_documents] returns, document after document, one
    [Document] per chunk, [length texts] of them, with the chunk as text
    and the reference of the source's metadata mapping as metadata; the
    store of mappings comes back as it was, so each of them reads the
    very mapping the source reads. *)
Theorem from_documents_shares_metadata fuel self documents textss h :
  Forall2 (fun d texts => from_text fuel self (get_content d) = Some texts)
          documents textss ->
  from_documents fuel self documents h
  = Some (concat (zip_with chunk_documents documents textss), h)
  /\ Forall2 (fun d out =>
        exists texts,
          from_text fuel self (get_content d) = Some texts
          /\ length out = length texts
          /\ map get_content out = texts
          /\ Forall (fun c => get_metadata c = get_metadata d
                              /\ h !! get_metadata c = h !! get_metadata d) out)
       documents (zip_with chunk_documents documents textss).
Proof.
  intros Hall. split.
  { unfold from_documents. by rewrite (documents_loop_run _ _ _ textss). }
  induction Hall as [|d texts documents textss Hd _ IH]; simpl; constructor; [|done].
  exists texts. unfold chunk_documents.
  rewrite length_map, map_map, map_id. repeat split; [done|].
  apply Forall_map. by apply Forall_true.
Qed.

End SplitterFacts.

(** The flag returned next to the sub-texts by [split_by_fns] is not
    used: two implementations of the helpers that count tokens alike and
    return the same sub-texts give the same fragments. *)
Lemma _split_ignores_flag (U1 U2 : Utils) fuel self txt :
  (forall t, @token_len U1 t = @token_len U2 t) ->
  (forall t fns sub_fns,
     (@split_by_fns U1 t fns sub_fns).1 = (@split_by_fns U2 t fns sub_fns).1) ->
  @_split U1 fuel self txt = @_split U2 fuel self txt.
Proof.
  intros Htok Hsubs. revert txt. induction fuel as [|fuel IH]; intros txt; [done|].
  simpl. rewrite Htok. destruct (token_len txt <=? chunk_size self); [done|].
  specialize (Hsubs txt (_split_fns self) (_sub_split_fns self)).
  destruct (@split_by_fns U1 txt _ _) as [subs b1].
  destruct (@split_by_fns U2 txt _ _) as [subs' b2]. simpl in Hsubs. subst subs'.
  generalize (Some (@nil Fragment)).
  induction subs as [|sub subs IHsubs]; intros acc; [done|].
  simpl. rewrite <- IHsubs. f_equal.
  unfold split_step. destruct acc as [acc|]; [|done].
  by rewrite Htok, IH.
Qed.

(** ** Facts about the helpers as specified *)

(** *** Word counts *)

Lemma string_app_nil_r (a : string) : a +:+ "" = a.
Proof.
  induction a as [|c a IH]; [done|].
  change (String c a +:+ "") with (String c (a +:+ "")). by rewrite IH.
Qed.


Lemma string_app_assoc (a b c : string) : (a +:+ b) +:+ c = a +:+ (b +:+ c).
Proof.
  induction a as [|x a IH]; [done|].
  change (String x a +:+ b) with (String x (a +:+ b)).
  change (String x (a +:+ b) +:+ c) with (String x ((a +:+ b) +:+ c)).
  by rewrite IH.
Qed.

Lemma words_go_length_Some x y s :
  length (String.words_go (Some x) s) = length (String.words_go (Some y) s).
Proof.
  revert x y. induction s as [|c s IH]; intros x y; simpl; [done|].
  destruct (Ascii.is_space c); simpl; [done | apply IH].
Qed.

Lemma words_go_length_le cur s :
  (length (String.words_go cur s)
   <= length (option_list cur) + length (String.words_go None s))%nat.
Proof.
  destruct s as [|c s]; simpl.
  { destruct cur; simpl; lia. }
  destruct (Ascii.is_space c); simpl.
  - rewrite length_app. destruct cur; simpl; lia.
  - destruct cur as [x|]; simpl; [|lia].
    rewrite (words_go_length_Some (String c x) (String c "")). lia.
Qed.

Lemma words_go_length_app cur a b :
  (length (String.words_go cur (a +:+ b))
   <= length (String.words_go cur a) + length (String.words_go None b))%nat.
Proof.
  revert cur. induction a as [|c a IH]; intros cur.
  - change ("" +:+ b) with b. simpl.
    etrans; [apply words_go_length_le|]. destruct cur; simpl; lia.
  - change (String c a +:+ b) with (String c (a +:+ b)). simpl.
    destruct (Ascii.is_space c).
    + rewrite !length_app. specialize (IH None). lia.
    + apply IH.
Qed.

Lemma words_go_length_bound cur s :
  (length (String.words_go cur s) <= length (option_list cur) + String.length s)%nat.
Proof.
  revert cur. induction s as [|c s IH]; intros cur; simpl.
  { destruct cur; simpl; lia. }
  destruct (Ascii.is_space c).
  - rewrite length_app. specialize (IH None). destruct cur; simpl in *; lia.
  - etrans; [apply IH|]. destruct cur; simpl; lia.
Qed.

(** The token count of a concatenation is at most the sum of the token
    counts. *)
Lemma token_len_app (a b : string) : token_len (a +:+ b) <= token_len a + token_len b.
Proof.
  unfold token_len. simpl. unfold spec_tokenizer, String.words.
  pose proof (words_go_length_app None a b). lia.
Qed.

Lemma token_len_nonneg (a : string) : 0 <= token_len a.
Proof. unfold token_len. lia. Qed.

(** A text has at most as many tokens as characters. *)
Lemma token_len_le_length (a : string) : token_len a <= Z.of_nat (String.length a).
Proof.
  unfold token_len. simpl. unfold spec_tokenizer, String.words.
  pose proof (words_go_length_bound None a). simpl in *. lia.
Qed.

(** *** The strategies *)

Lemma spec_split_by_char_length text :
  length (spec_split_by_char text) = String.length text.
Proof. induction text as [|c s IH]; simpl; [done | by rewrite IH]. Qed.

Lemma spec_split_by_char_single text piece :
  piece ∈ spec_split_by_char text -> String.length piece = 1%nat.
Proof.
  induction text as [|c s IH]; simpl.
  - by intros ?%elem_of_nil.
  - intros [->|Hin]%elem_of_cons; [done | by apply IH].
Qed.

Lemma prefix_app (a b rest : string) :
  String.prefix a b = true -> String.prefix a (b +:+ rest) = true.
Proof.
  revert b. induction a as [|x a IH]; intros b.
  { intros _. by destruct (b +:+ rest). }
  destruct b as [|y b]; [done|].
  change (String y b +:+ rest) with (String y (b +:+ rest)). simpl.
  destruct (Ascii.ascii_dec x y); [apply IH | done].
Qed.

Lemma no_sep_in_snoc sep cur c rest :
  no_sep_in sep cur (String c rest) ->
  String.prefix sep (String c rest) = false ->
  no_sep_in sep (cur +:+ String c "") rest.
Proof.
  intros Hcur Hc. induction cur as [|x cur IH].
  - by split.
  - destruct Hcur as [Hx Hcur].
    change (String x cur +:+ String c "") with (String x (cur +:+ String c "")).
    split; [|by apply IH].
    change (String x (cur +:+ String c "")) with (String x cur +:+ String c "").
    by rewrite string_app_assoc.
Qed.

Lemma no_sep_in_no_sep sep cur rest : no_sep_in sep cur rest -> no_sep sep cur.
Proof.
  induction cur as [|x cur IH]; [done|]. intros [Hx Hcur]. split; [|by apply IH].
  destruct (String.prefix sep (String x cur)) eqn:Hpre; [|done].
  by rewrite (prefix_app _ _ rest Hpre) in Hx.
Qed.

(** Every piece cut by the scan is free of the separator. *)
Lemma split_sep_go_no_sep sep skip cur s :
  (skip <> 0%nat -> cur = "") ->
  no_sep_in sep cur s ->
  Forall (no_sep sep) (split_sep_go sep skip cur s).
Proof.
  revert skip cur. induction s as [|c s IH]; intros skip cur Hskip Hcur.
  { repeat constructor. by eapply no_sep_in_no_sep. }
  cbn [split_sep_go]. destruct skip as [|skip].
  - destruct (String.prefix sep (String c s)) eqn:Hpre.
    + constructor; [by eapply no_sep_in_no_sep | by apply IH].
    + apply IH; [done | by apply no_sep_in_snoc].
  - rewrite Hskip by done. by apply IH.
Qed.

(** A text free of the separator is scanned as one piece. *)
Lemma split_sep_go_whole sep cur piece :
  no_sep sep piece -> split_sep_go sep 0 cur piece = [cur +:+ piece].
Proof.
  revert cur. induction piece as [|c piece IH]; intros cur.
  { intros _. simpl. by rewrite string_app_nil_r. }
  intros [Hc Hpiece]. cbn [split_sep_go]. rewrite Hc, IH by done.
  by rewrite string_app_assoc.
Qed.

(** The separator strategy does not split its own pieces again. *)
Lemma spec_split_by_sep_flat sep text piece :
  piece ∈ spec_split_by_sep sep text ->
  (length (spec_split_by_sep sep piece) <= 1)%nat.
Proof.
  unfold spec_split_by_sep. destruct sep as [|x sep]; [done|].
  intros [Hne Hin]%list_elem_of_filter.
  pose proof (split_sep_go_no_sep (String x sep) 0 "" text ltac:(done) I) as Hall.
  rewrite Forall_forall in Hall.
  rewrite (split_sep_go_whole _ _ _ (Hall _ Hin)).
  change ("" +:+ piece) with piece.
  rewrite filter_cons, filter_nil. by destruct (decide (piece <> "")).
Qed.

(** What the strategies of a constructed splitter return: a separator
    split of two or more pieces, or else a character split of two or more
    pieces, or else the text itself, which then has at most one
    character. *)
Lemma spec_split_by_fns_cases sep text :
  let subs := (spec_split_by_fns text [spec_split_by_sep sep] [spec_split_by_char]).1 in
  (subs = spec_split_by_sep sep text /\ (1 < length subs)%nat)
  \/ (subs = spec_split_by_char text /\ (1 < length subs)%nat)
  \/ (subs = [text] /\ (String.length text <= 1)%nat).
Proof.
  unfold spec_split_by_fns. simpl.
  destruct (Nat.ltb_spec 1 (length (spec_split_by_sep sep text))) as [Hsep|Hsep]; simpl.
  { by left. }
  destruct (Nat.ltb_spec 1 (length (spec_split_by_char text))) as [Hchar|Hchar]; simpl.
  { right. by left. }
  right. right. split; [done|]. by rewrite <- spec_split_by_char_length.
Qed.

Lemma spec_split_by_fns_nonempty sep text :
  (spec_split_by_fns text [spec_split_by_sep sep] [spec_split_by_char]).1 <> [].
Proof.
  destruct (spec_split_by_fns_cases sep text) as [[-> Hlen]|[[-> Hlen]|[-> Hlen]]];
    try done; intros Heq; rewrite Heq in Hlen; simpl in Hlen; lia.
Qed.

(** The loop returns when every recursive call it makes returns. *)
Lemma foldl_split_step_total cs (recur : string -> option (list Fragment)) subs :
  (forall sub, sub ∈ subs ->
     token_len sub <= cs \/ exists inner, recur sub = Some inner /\ inner <> []) ->
  exists frags,
    foldl (split_step cs recur) (Some []) subs = Some frags
    /\ (subs <> [] -> frags <> []).
Proof.
  induction subs as [|sub subs IH]; intros Hsubs.
  { by exists []. }
  destruct IH as (frags & Hloop & _).
  { intros s Hs. apply Hsubs. by right. }
  rewrite foldl_split_step_cons, Hloop.
  destruct (Z.leb_spec (token_len sub) cs) as [Hle|Hgt].
  - eexists. by split.
  - destruct (Hsubs sub) as [?|(inner & -> & Hne)]; [by left | lia |].
    eexists. split; [done|]. intros _. by destruct inner.
Qed.

(** With a budget of at least one token, a text that the separator
    strategy leaves whole is split without a nested call: it is within
    the budget, or it falls to single characters, which are. *)
Lemma _split_flat cs co sep self fuel text :
  __init__ cs co sep = inr self ->
  1 <= cs ->
  (length (spec_split_by_sep sep text) <= 1)%nat ->
  exists frags, _split (S fuel) self text = Some frags /\ frags <> [].
Proof.
  unfold __init__. destruct (co >? cs); [done|]. intros [= <-] Hcs Hflat.
  cbn [_split chunk_size _split_fns _sub_split_fns].
  destruct (Z.leb_spec (token_len text) cs) as [Hle|Hgt].
  { eexists. by split. }
  pose proof (spec_split_by_fns_nonempty sep text) as Hne.
  pose proof (token_len_le_length text) as Htext.
  change split_by_fns with spec_split_by_fns.
  change split_by_sep with spec_split_by_sep.
  change split_by_char with spec_split_by_char.
  destruct (spec_split_by_fns_cases sep text) as [[Heq Hlen]|[[Heq Hlen]|[Heq Hlen]]];
    destruct (spec_split_by_fns text _ _) as [subs b]; simpl in Heq, Hlen, Hne;
    subst subs; [lia| |lia].
  edestruct (foldl_split_step_total cs (_split fuel
               {| chunk_size := cs; chunk_overlap := co;
                  _split_fns := [spec_split_by_sep sep];
                  _sub_split_fns := [spec_split_by_char] |}))
    as (frags & -> & Hfrags).
  - intros sub Hin%spec_split_by_char_single. left.
    pose proof (token_len_le_length sub). lia.
  - exists frags. split; [done | by apply Hfrags].
Qed.

(** With a budget of at least one token, [_split] returns on every text,
    and never nests deeper than one call inside the first. *)
Lemma _split_returns cs co sep self text :
  __init__ cs co sep = inr self ->
  1 <= cs ->
  exists frags, _split 2 self text = Some frags /\ frags <> [].
Proof.
  intros Hinit Hcs.
  destruct (Nat.le_gt_cases (length (spec_split_by_sep sep text)) 1) as [Hflat|Hsplit].
  { by eapply _split_flat. }
  pose proof (fun piece => _split_flat cs co sep self 0 piece Hinit Hcs) as Hpiece.
  revert Hinit Hpiece. unfold __init__. destruct (co >? cs); [done|].
  intros [= <-] Hpiece.
  cbn [_split chunk_size _split_fns _sub_split_fns].
  destruct (Z.leb_spec (token_len text) cs) as [Hle|Hgt].
  { eexists. by split. }
  pose proof (spec_split_by_fns_nonempty sep text) as Hne.
  change split_by_fns with spec_split_by_fns.
  change split_by_sep with spec_split_by_sep.
  change split_by_char with spec_split_by_char.
  destruct (spec_split_by_fns_cases sep text) as [[Heq Hlen]|[[Heq Hlen]|[Heq Hlen]]];
    destruct (spec_split_by_fns text _ _) as [subs b]; simpl in Heq, Hlen, Hne;
    subst subs.
  - edestruct (foldl_split_step_total cs) as (frags & -> & Hfrags).
    + intros sub Hin. right. apply Hpiece. by eapply spec_split_by_sep_flat.
    + exists frags. split; [done | by apply Hfrags].
  - edestruct (foldl_split_step_total cs) as (frags & -> & Hfrags).
    + intros sub Hin%spec_split_by_char_single. left.
      pose proof (token_len_le_length sub). lia.
    + exists frags. split; [done | by apply Hfrags].
  - pose proof (token_len_le_length text). lia.
Qed.

(** *** The merger *)

Lemma total_size_app (a b : list Fragment) :
  total_size (a ++ b) = total_size a + total_size b.
Proof. induction a as [|f a IH]; simpl; [done | rewrite IH; lia]. Qed.

Lemma emit_nonempty cur chunks : chunks <> [] -> emit cur chunks <> [].
Proof. by destruct cur. Qed.

Lemma merge_go_nonempty cs co splits cur :
  splits <> [] \/ cur <> [] -> merge_go cs co splits cur <> [].
Proof.
  revert cur. induction splits as [|f splits IH]; intros cur Hne; simpl.
  { destruct Hne as [?|?]; [done | by destruct cur]. }
  destruct (total_size cur + token_size f <=? cs).
  - apply IH. right. by destruct cur.
  - apply emit_nonempty, IH. right.
    by destruct (if cs <? token_size f then [] else overlap_window co cur).
Qed.

(** The backward walk takes a run of the most recent fragments and lays
    it before what it already holds. *)
Lemma overlap_go_take co acc rev_closed window :
  exists k, overlap_go co acc rev_closed window = rev (take k rev_closed) ++ window.
Proof.
  revert acc window. induction rev_closed as [|f rc IH]; intros acc window; simpl.
  { by exists 0%nat. }
  destruct (acc + token_size f <=? co).
  - destruct (IH (acc + token_size f) (f :: window)) as [k ->].
    exists (S k). simpl. by rewrite <- app_assoc.
  - by exists 0%nat.
Qed.

Lemma overlap_go_bound co acc rev_closed window :
  total_size window = acc ->
  acc <= Z.max 0 co ->
  total_size (overlap_go co acc rev_closed window) <= Z.max 0 co.
Proof.
  revert acc window. induction rev_closed as [|f rc IH]; intros acc window Hacc Hle; simpl.
  { lia. }
  destruct (Z.leb_spec (acc + token_size f) co); [|lia].
  apply IH; simpl; lia.
Qed.

(** The window is a tail of the closed chunk, in the chunk's order. *)
Lemma overlap_window_suffix co closed : overlap_window co closed `suffix_of` closed.
Proof.
  unfold overlap_window.
  destruct (overlap_go_take co 0 (rev closed) []) as [k ->].
  exists (rev (drop k (rev closed))).
  rewrite app_nil_r, <- rev_app_distr, take_drop. by rewrite rev_involutive.
Qed.

(** Its token size never passes [chunk_overlap], unless it is empty. *)
Lemma overlap_window_bound co closed :
  total_size (overlap_window co closed) <= Z.max 0 co.
Proof. apply overlap_go_bound; simpl; lia. Qed.

Lemma overlap_window_negative co closed : co < 0 ->
  Forall (fun f => 0 <= token_size f) closed -> overlap_window co closed = [].
Proof.
  intros Hco Hpos. unfold overlap_window.
  assert (Forall (fun f => 0 <= token_size f) (rev closed)) as Hrev.
  { apply Forall_forall. intros f Hf. rewrite Forall_forall in Hpos.
    apply Hpos. apply list_elem_of_In. apply in_rev. by apply list_elem_of_In. }
  destruct (rev closed) as [|f rc]; simpl; [done|].
  apply Forall_cons in Hrev as [Hf _].
  destruct (Z.leb_spec (0 + token_size f) co); [lia | done].
Qed.

Lemma total_size_nonneg frags :
  Forall (fun f => 0 <= token_size f) frags -> 0 <= total_size frags.
Proof. induction 1; simpl; lia. Qed.

Lemma Forall_overlap_window (P : Fragment -> Prop) co closed :
  Forall P closed -> Forall P (overlap_window co closed).
Proof.
  intros Hall. destruct (overlap_window_suffix co closed) as [pre Heq].
  rewrite Heq in Hall. by apply Forall_app in Hall as [_ ?].
Qed.

(** The fragments of every chunk are fragments that were to be merged. *)
Lemma merge_go_Forall (P : Fragment -> Prop) cs co splits cur :
  Forall P splits -> Forall P cur -> Forall (Forall P) (merge_go cs co splits cur).
Proof.
  intros Hsplits. revert cur.
  induction Hsplits as [|f splits Hf _ IH]; intros cur Hcur; simpl.
  { destruct cur; repeat constructor; by inversion Hcur. }
  destruct (total_size cur + token_size f <=? cs).
  - apply IH, Forall_app. by repeat constructor.
  - assert (Forall (Forall P)
              (merge_go cs co splits
                 ((if cs <? token_size f then [] else overlap_window co cur) ++ [f])))
      as Hrest.
    { apply IH, Forall_app. split; [|by repeat constructor].
      destruct (cs <? token_size f); [constructor | by apply Forall_overlap_window]. }
    destruct cur; simpl; [done | by constructor].
Qed.

(** A chunk is within [chunk_size] unless it is a window and the
    fragment that opened it. *)
Lemma merge_go_shape cs co splits cur :
  Forall (fun f => token_size f <= cs) splits ->
  cur = [] \/ chunk_shape cs co cur ->
  Forall (chunk_shape cs co) (merge_go cs co splits cur).
Proof.
  intros Hsplits. revert cur.
  induction Hsplits as [|f splits Hf _ IH]; intros cur Hcur; simpl.
  { destruct cur; [constructor|]. destruct Hcur as [?|?]; [done|].
    constructor; [done | constructor]. }
  destruct (Z.leb_spec (total_size cur + token_size f) cs) as [Hfit|Hover].
  - apply IH. right. left. rewrite total_size_app. simpl. lia.
  - assert (Forall (chunk_shape cs co)
              (merge_go cs co splits
                 ((if cs <? token_size f then [] else overlap_window co cur) ++ [f])))
      as Hrest.
    { apply IH. right. right. eexists _, f. split; [done|]. split; [|done].
      destruct (cs <? token_size f); simpl; [lia|]. apply overlap_window_bound. }
    destruct cur; simpl; [done|].
    constructor; [|done]. by destruct Hcur.
Qed.

(** An accumulator that holds a fragment opens the first chunk. *)
Lemma merge_go_head cs co splits cur :
  cur <> [] -> exists more rest, merge_go cs co splits cur = (cur ++ more) :: rest.
Proof.
  revert cur. induction splits as [|f splits IH]; intros cur Hcur; simpl.
  { exists [], []. rewrite app_nil_r. by destruct cur. }
  destruct (total_size cur + token_size f <=? cs).
  - destruct (IH (cur ++ [f])) as (more & rest & ->); [by destruct cur|].
    exists (f :: more), rest. by rewrite <- app_assoc.
  - eexists [], _. rewrite app_nil_r. by destruct cur.
Qed.

(** Each chunk after the first starts with the overlap window of the
    chunk before it and goes on with at least one new fragment. *)
Lemma merge_go_linked cs co splits cur i c1 c2 :
  Forall (fun f => token_size f <= cs) splits ->
  merge_go cs co splits cur !! i = Some c1 ->
  merge_go cs co splits cur !! S i = Some c2 ->
  exists fresh, fresh <> [] /\ c2 = overlap_window co c1 ++ fresh.
Proof.
  intros Hsplits. revert cur i.
  induction Hsplits as [|f splits Hf _ IH]; intros cur i; simpl.
  { by destruct cur. }
  destruct (Z.leb_spec (total_size cur + token_size f) cs) as [Hfit|Hover].
  { apply IH. }
  destruct (Z.ltb_spec cs (token_size f)) as [?|_]; [lia|].
  destruct cur as [|g cur]; [apply IH|].
  cbn [emit]. destruct i as [|i]; [|apply IH].
  simpl. intros [= <-].
  destruct (merge_go_head cs co splits (overlap_window co (g :: cur) ++ [f]))
    as (more & rest & ->).
  { by destruct (overlap_window co (g :: cur)). }
  simpl. intros [= <-]. exists (f :: more). split; [done|].
  by rewrite <- app_assoc.
Qed.

Lemma join_app (a b : list Fragment) : join (a ++ b) = join a +:+ join b.
Proof.
  induction a as [|f a IH]; simpl; [done|].
  by rewrite IH, string_app_assoc.
Qed.

(** The chunk string has no more tokens than its fragments carry. *)
Lemma token_len_join frags :
  Forall (fun f => token_size f = token_len (text f)) frags ->
  token_len (join frags) <= total_size frags.
Proof.
  induction 1 as [|f frags Hf _ IH]; simpl; [done|].
  etrans; [apply token_len_app|]. lia.
Qed.

(** ** The splitter over the helpers as specified *)

(** The scenario of section 8 of the specification: with
    [chunk_size = 10] and [chunk_overlap = 3], two paragraphs of eight
    tokens each become two chunks, one per paragraph, and no overlap is laid
    down, the first paragraph being larger than the overlap. *)
Example from_text_two_paragraphs :
  from_text 2 (splitter 10 3) two_paragraphs
  = Some ["a b c d e f g h"; "i j k l m n o p"].
Proof. reflexivity. Qed.

(** C1, as stated, fails: [chunk_size = 10] with [chunk_overlap = 10]
    satisfies [chunk_overlap >= chunk_size], and construction succeeds. *)
Lemma init_equal_overlap_succeeds :
  10 >= 10 /\ __init__ 10 10 default_separator = inr (splitter 10 10).
Proof. split; [lia | reflexivity]. Qed.

(** Construction at zero and at negative parameters. *)
Lemma init_accepts_overlap_up_to_size_witness :
  (0 <= 0 /\ __init__ 0 0 default_separator = inr (splitter 0 0))
  /\ (-7 <= -5 /\ __init__ (-5) (-7) default_separator = inr (splitter (-5) (-7))).
Proof.
  split; (split; [lia|]).
  - refine (init_accepts_overlap_up_to_size 0 0 default_separator _). lia.
  - refine (init_accepts_overlap_up_to_size (-5) (-7) default_separator _). lia.
Defined.

(** Seven words with a budget of three: no sentence fragment. *)
Lemma _split_over_budget_no_sentence_witness :
  exists frags,
    (chunk_size (splitter 3 1) < token_len "a b c d e f g"
     /\ _split 2 (splitter 3 1) "a b c d e f g" = Some frags)
    /\ Forall (fun f => is_sentence f = false) frags.
Proof.
  eexists. split; [split; reflexivity|].
  apply (_split_over_budget_no_sentence 2 (splitter 3 1) "a b c d e f g");
    reflexivity.
Defined.

(** The merge of section 4.4, read as it is worded, lays the overlap
    window before the fragment that did not fit without looking at the
    budget again: with [chunk_size = 2] and [chunk_overlap = 1] the second
    chunk of [three_paragraphs] is the window ["y "] followed by ["a b"],
    two fragments, each within the budget, and three tokens.  Sections 3
    and 8 of the specification bound every such chunk by [chunk_size];
    which of the two [merge_splits] does is not settled by the sources at
    hand. *)
Lemma from_text_chunk_over_budget :
  __init__ 2 1 default_separator = inr (splitter 2 1)
  /\ from_text 2 (splitter 2 1) three_paragraphs = Some ["xy "; "y a b"]
  /\ (exists splits c1 f1 f2,
        _split 2 (splitter 2 1) three_paragraphs = Some splits
        /\ merge_chunks splits 2 1 = [c1; [f1; f2]]
        /\ join [f1; f2] = "y a b"
        /\ token_size f1 <= 2 /\ token_size f2 <= 2)
  /\ ~ token_len "y a b" <= chunk_size (splitter 2 1).
Proof.
  split; [reflexivity|]. split; [reflexivity|]. split.
  - do 4 eexists. split; [reflexivity|]. split; [reflexivity|].
    split; [reflexivity|]. split; by vm_compute.
  - by vm_compute.
Qed.

(** Under that reading every chunk returned by [from_text] has at most
    [chunk_size] tokens, except a chunk made of an overlap window, of at
    most [max 0 chunk_overlap] tokens, followed by the one fragment that
    did not fit the chunk before, of at most [chunk_size] tokens; every
    chunk has at most [chunk_size + max 0 chunk_overlap] tokens. *)
Lemma from_text_chunk_bound fuel self txt chunks :
  from_text fuel self txt = Some chunks ->
  Forall (fun c =>
            token_len c <= chunk_size self + Z.max 0 (chunk_overlap self)
            /\ (token_len c <= chunk_size self
                \/ exists window piece,
                     c = window +:+ piece
                     /\ token_len window <= Z.max 0 (chunk_overlap self)
                     /\ token_len piece <= chunk_size self)) chunks.
Proof.
  unfold from_text. destruct (_split fuel self txt) as [splits|] eqn:Hsplit; [|done].
  intros [= <-]. apply _split_fragments_fit in Hsplit.
  simpl. unfold spec_merge_splits, merge_chunks. apply Forall_map.
  assert (Forall (chunk_shape (chunk_size self) (chunk_overlap self))
            (merge_go (chunk_size self) (chunk_overlap self) splits [])) as Hshape.
  { apply merge_go_shape; [|by left].
    eapply Forall_impl; [exact Hsplit|]. by intros f [_ ?]. }
  assert (Forall (Forall (fun f => token_size f = token_len (text f)))
            (merge_go (chunk_size self) (chunk_overlap self) splits [])) as Hsizes.
  { apply merge_go_Forall; [|constructor].
    eapply Forall_impl; [exact Hsplit|]. by intros f [? _]. }
  induction Hshape as [|c chunks Hc _ IH]; [constructor|].
  apply Forall_cons in Hsizes as [Hsize Hsizes].
  constructor; [|by apply IH].
  pose proof (token_len_join c Hsize) as Hjoin.
  destruct Hc as [Hfit|(window & f & -> & Hwindow & Hf)].
  { split; [lia | left; lia]. }
  apply Forall_app in Hsize as [Hsize_w [Hsize_f _]%Forall_cons].
  pose proof (token_len_join window Hsize_w) as Hjoin_w.
  assert (join (window ++ [f]) = join window +:+ text f) as Hsplit_join.
  { rewrite join_app. simpl. by rewrite string_app_nil_r. }
  split.
  - rewrite Hsplit_join. etrans; [apply token_len_app|]. lia.
  - right. exists (join window), (text f). split; [done|]. lia.
Qed.

(** C3: a text whose token count is within [chunk_size] comes back as
    exactly one chunk, the text itself. *)
Theorem from_text_fits_one_chunk fuel self text :
  token_len text <= chunk_size self ->
  from_text (S fuel) self text = Some [text].
Proof.
  intros Hfit. unfold from_text. simpl.
  destruct (Z.leb_spec (token_len text) (chunk_size self)) as [_|?]; [|lia].
  unfold spec_merge_splits, merge_chunks. simpl.
  destruct (Z.leb_spec (0 + token_len text) (chunk_size self)) as [_|?]; [|lia].
  simpl. by rewrite string_app_nil_r.
Qed.

(** Six words with a budget of ten. *)
Lemma from_text_fits_one_chunk_witness :
  token_len "Tempest AI is a data library" <= chunk_size (splitter 10 3)
  /\ from_text 1 (splitter 10 3) "Tempest AI is a data library"
     = Some ["Tempest AI is a data library"].
Proof.
  split; [by vm_compute|].
  apply (from_text_fits_one_chunk 0 (splitter 10 3)). by vm_compute.
Defined.

(** C5, as stated, fails for a negative [chunk_overlap], which
    construction accepts: with [chunk_size = 1] and [chunk_overlap = -1]
    the text ["a b"] gives the chunks ["a "] and ["b"]; the window laid
    down is empty, its token size is 0, and 0 is not at most -1. *)
Lemma overlap_window_negative_overlap :
  __init__ 1 (-1) default_separator = inr (splitter 1 (-1))
  /\ from_text 2 (splitter 1 (-1)) "a b" = Some ["a "; "b"]
  /\ (exists splits c1 c2,
        _split 2 (splitter 1 (-1)) "a b" = Some splits
        /\ merge_chunks splits 1 (-1) = [c1; c2]
        /\ overlap_window (-1) c1 = []
        /\ ~ total_size (overlap_window (-1) c1) <= chunk_overlap (splitter 1 (-1))).
Proof.
  split; [reflexivity|]. split; [reflexivity|].
  do 3 eexists. split; [reflexivity|]. split; [reflexivity|].
  split; [reflexivity|]. by vm_compute.
Qed.

(** C5, amended: in the merge step of [from_text], a chunk that follows
    another starts with the overlap window of that chunk and of no other:
    a tail of its fragments, in their order, of token size between 0 and
    [max 0 chunk_overlap] (so at most [chunk_overlap] when that is not
    negative, and empty when it is), followed by at least one new
    fragment.  The shared text, [join] of the window, ends the first chunk
    and begins the second and has between 0 and [max 0 chunk_overlap]
    tokens. *)
Theorem from_text_overlap_window fuel self txt splits i c1 c2 :
  _split fuel self txt = Some splits ->
  merge_chunks splits (chunk_size self) (chunk_overlap self) !! i = Some c1 ->
  merge_chunks splits (chunk_size self) (chunk_overlap self) !! S i = Some c2 ->
  from_text fuel self txt
  = Some (map join (merge_chunks splits (chunk_size self) (chunk_overlap self)))
  /\ exists window before fresh,
       window = overlap_window (chunk_overlap self) c1
       /\ c1 = before ++ window
       /\ c2 = window ++ fresh
       /\ fresh <> []
       /\ join c1 = join before +:+ join window
       /\ join c2 = join window +:+ join fresh
       /\ 0 <= total_size window <= Z.max 0 (chunk_overlap self)
       /\ 0 <= token_len (join window) <= Z.max 0 (chunk_overlap self)
       /\ (chunk_overlap self < 0 -> window = []).
Proof.
  intros Hsplit Hc1 Hc2. split.
  { unfold from_text. by rewrite Hsplit. }
  pose proof (_split_fragments_fit _ _ _ _ Hsplit) as Hfit.
  assert (Forall (fun f => token_size f = token_len (text f)) c1) as Hsizes.
  { assert (Forall (Forall (fun f => token_size f = token_len (text f)))
              (merge_chunks splits (chunk_size self) (chunk_overlap self))) as Hall.
    { apply merge_go_Forall; [|constructor].
      eapply Forall_impl; [exact Hfit|]. by intros f [? _]. }
    rewrite Forall_forall in Hall. apply Hall. by eapply list_elem_of_lookup_2. }
  destruct (merge_go_linked _ _ _ _ _ _ _
              ltac:(eapply Forall_impl; [exact Hfit|]; by intros f [_ ?]) Hc1 Hc2)
    as (fresh & Hfresh & ->).
  destruct (overlap_window_suffix (chunk_overlap self) c1) as [before Hbefore].
  exists (overlap_window (chunk_overlap self) c1), before, fresh.
  assert (Forall (fun f => token_size f = token_len (text f))
            (overlap_window (chunk_overlap self) c1)) as Hwin.
  { by apply Forall_overlap_window. }
  assert (Forall (fun f => 0 <= token_size f) c1) as Hpos.
  { eapply Forall_impl; [exact Hsizes|]. intros f ->. apply token_len_nonneg. }
  pose proof (overlap_window_bound (chunk_overlap self) c1) as Hbound.
  pose proof (token_len_join _ Hwin) as Hjoin.
  pose proof (token_len_nonneg (join (overlap_window (chunk_overlap self) c1))).
  pose proof (total_size_nonneg _ (Forall_overlap_window _ (chunk_overlap self) _ Hpos)).
  repeat split; try done; try lia.
  - rewrite Hbefore at 1. apply join_app.
  - apply join_app.
  - intros Hneg. by apply overlap_window_negative.
Qed.

(** The first two chunks of seven words with a budget of three and an
    overlap of one. *)
Lemma from_text_overlap_window_witness :
  exists splits c1 c2,
    (_split 2 (splitter 3 1) "a b c d e f g" = Some splits
     /\ merge_chunks splits 3 1 !! 0%nat = Some c1
     /\ merge_chunks splits 3 1 !! 1%nat = Some c2)
    /\ from_text 2 (splitter 3 1) "a b c d e f g" = Some (map join (merge_chunks splits 3 1))
    /\ exists window before fresh,
         window = overlap_window 1 c1
         /\ c1 = before ++ window
         /\ c2 = window ++ fresh
         /\ fresh <> []
         /\ join c1 = join before +:+ join window
         /\ join c2 = join window +:+ join fresh
         /\ 0 <= total_size window <= Z.max 0 1
         /\ 0 <= token_len (join window) <= Z.max 0 1
         /\ (1 < 0 -> window = []).
Proof.
  do 3 eexists. split.
  { split; [reflexivity|]. split; reflexivity. }
  apply (from_text_overlap_window 2 (splitter 3 1) "a b c d e f g" _ 0); reflexivity.
Defined.

(** C6, as stated, fails: a budget of zero tokens is accepted by
    construction, and then the single character the fallback arrives at
    is over the budget and is split again without end: no number of
    nested calls lets [_split] return on ["aaa"]. *)
Lemma _split_zero_budget_never_returns :
  __init__ 0 0 default_separator = inr (splitter 0 0)
  /\ chunk_size (splitter 0 0) < token_len "aaa"
  /\ ~ exists fuel frags, _split fuel (splitter 0 0) "aaa" = Some frags.
Proof.
  split; [reflexivity|]. split; [reflexivity|].
  intros (fuel & frags & Hrun).
  destruct fuel as [|fuel]; [done|].
  simpl in Hrun.
  rewrite (_split_unsplittable_diverges (splitter 0 0) "a") in Hrun; done.
Qed.

(** C6, amended: for a splitter built with [chunk_size >= 1], [_split]
    returns on every text, and no call nests deeper than one call inside
    the first; it returns at least one fragment and every fragment is
    within the budget (there is no oversized leaf). *)
Theorem _split_terminates cs co sep self txt :
  __init__ cs co sep = inr self ->
  1 <= cs ->
  exists frags,
    _split 2 self txt = Some frags
    /\ frags <> []
    /\ Forall (fun f => token_size f = token_len (text f)
                        /\ token_size f <= chunk_size self) frags.
Proof.
  intros Hinit Hcs.
  destruct (_split_returns cs co sep self txt Hinit Hcs) as (frags & Hrun & Hne).
  exists frags. split; [done|]. split; [done|]. by eapply _split_fragments_fit.
Qed.

(** Three characters with a budget of one token. *)
Lemma _split_terminates_witness :
  (__init__ 1 0 default_separator = inr (splitter 1 0) /\ 1 <= 1)
  /\ exists frags,
       _split 2 (splitter 1 0) "aaa" = Some frags
       /\ frags <> []
       /\ Forall (fun f => token_size f = token_len (text f)
                           /\ token_size f <= chunk_size (splitter 1 0)) frags.
Proof.
  split; [split; [reflexivity | lia]|].
  apply (_split_terminates 1 0 default_separator (splitter 1 0) "aaa");
    [reflexivity | lia].
Defined.

(** C7, as stated, fails: the splitter built with [chunk_size = 0] is
    validly constructed, and [from_text] does not return on ["a"]: the call
    of [_split] it starts nests without end. *)
Lemma from_text_zero_budget_never_returns :
  __init__ 0 0 default_separator = inr (splitter 0 0)
  /\ ~ exists fuel chunks, from_text fuel (splitter 0 0) "a" = Some chunks.
Proof.
  split; [reflexivity|].
  intros (fuel & chunks & Hrun). unfold from_text in Hrun.
  rewrite (_split_unsplittable_diverges (splitter 0 0) "a") in Hrun; done.
Qed.

(** C7, amended: for a splitter built with [chunk_size >= 1], [from_text]
    returns on every text, with [_split] nesting no deeper than one call
    inside the first, and returns at least one chunk. *)
Theorem from_text_returns cs co sep self txt :
  __init__ cs co sep = inr self ->
  1 <= cs ->
  exists chunks, from_text 2 self txt = Some chunks /\ chunks <> [].
Proof.
  intros Hinit Hcs.
  destruct (_split_returns cs co sep self txt Hinit Hcs) as (frags & Hrun & Hne).
  unfold from_text. rewrite Hrun. eexists. split; [done|].
  cbn [merge_splits SpecUtils]. unfold spec_merge_splits, merge_chunks.
  intros Hnil%fmap_nil_inv. revert Hnil. apply merge_go_nonempty. by left.
Qed.

(** The empty text gives one chunk. *)
Lemma from_text_returns_witness :
  (__init__ 10 3 default_separator = inr (splitter 10 3) /\ 1 <= 10)
  /\ exists chunks,
       from_text 2 (splitter 10 3) "" = Some chunks /\ chunks <> [].
Proof.
  split; [split; [reflexivity | lia]|].
  apply (from_text_returns 10 3 default_separator (splitter 10 3) "");
    [reflexivity | lia].
Defined.

(** All the documents built for one source see an update made through
    any one of them: the mapping is shared, not copied. *)
Lemma chunk_documents_alias document texts c1 c2 key value m
    (h : gmap ref (gmap string string)) :
  c1 ∈ chunk_documents document texts ->
  c2 ∈ chunk_documents document texts ->
  h !! get_metadata document = Some m ->
  set_metadata c1 key value h !! get_metadata c2 = Some (<[key := value]> m)
  /\ set_metadata c1 key value h !! get_metadata document = Some (<[key := value]> m).
Proof.
  unfold chunk_documents.
  intros (t1 & -> & _)%list_elem_of_fmap (t2 & -> & _)%list_elem_of_fmap Hm.
  unfold set_metadata. simpl. rewrite Hm. by rewrite lookup_insert_eq.
Qed.

(** The example of the specification: one document with the mapping
    [{"filename": "a.txt"}], split into three chunks. *)
Lemma from_documents_shares_metadata_witness :
  Forall2 (fun d texts => from_text 2 (splitter 3 1) (get_content d) = Some texts)
    [example_document] [example_texts]
  /\ from_documents 2 (splitter 3 1) [example_document] example_store
     = Some (concat (zip_with chunk_documents [example_document] [example_texts]),
             example_store)
  /\ Forall2 (fun d out =>
        exists texts,
          from_text 2 (splitter 3 1) (get_content d) = Some texts
          /\ length out = length texts
          /\ map get_content out = texts
          /\ Forall (fun c => get_metadata c = get_metadata d
                              /\ example_store !! get_metadata c
                                 = example_store !! get_metadata d) out)
       [example_document] (zip_with chunk_documents [example_document] [example_texts]).
Proof.
  split.
  { constructor; [reflexivity | constructor]. }
  apply (from_documents_shares_metadata 2 (splitter 3 1)
           [example_document] [example_texts] example_store).
  constructor; [reflexivity | constructor].
Defined.

(** ** Further facts about the splitter, for any implementation of the helpers *)

Section SplitterMore.
Context `{U : Utils}.

(** X1: whatever the helpers do, a fragment returned by [_split] carries
    the token count of its own text and that count is within
    [chunk_size]. *)
Theorem _split_never_over_budget fuel self txt frags :
  _split fuel self txt = Some frags ->
  Forall (fun f => token_size f = token_len (text f)
                   /\ token_size f <= chunk_size self) frags.
Proof. apply _split_fragments_fit. Qed.

(** X2: a text over the budget that the strategies hand back as their
    only sub-text is never split: the call nests without end. *)
Theorem _split_unsplittable_never_returns self txt :
  chunk_size self < token_len txt ->
  (split_by_fns txt (_split_fns self) (_sub_split_fns self)).1 = [txt] ->
  forall fuel, _split fuel self txt = None.
Proof. apply _split_unsplittable_diverges. Qed.

(** X4: when every sub-text of a text over the budget is within the
    budget, [_split] returns one non-sentence fragment per sub-text, in
    order, without a nested call; no sub-text gives no fragment. *)
Theorem _split_one_level fuel self txt :
  chunk_size self < token_len txt ->
  Forall (fun sub => token_len sub <= chunk_size self)
         (split_by_fns txt (_split_fns self) (_sub_split_fns self)).1 ->
  _split (S fuel) self txt
  = Some (map (fun sub => {| text := sub; is_sentence := false;
                             token_size := token_len sub |})
              (split_by_fns txt (_split_fns self) (_sub_split_fns self)).1).
Proof.
  intros Hover Hfit. simpl.
  destruct (Z.leb_spec (token_len txt) (chunk_size self)); [lia|].
  destruct (split_by_fns txt _ _) as [subs b]. simpl in *.
  induction Hfit as [|sub subs Hsub _ IH]; [done|].
  rewrite foldl_split_step_cons.
  destruct (Z.leb_spec (token_len sub) (chunk_size self)); [|lia].
  by rewrite IH.
Qed.

Lemma documents_loop_inv fuel self documents chunks h out h' :
  documents_loop fuel self documents chunks h = Some (out, h') ->
  h' = h
  /\ exists textss,
       Forall2 (fun d texts => from_text fuel self (get_content d) = Some texts)
               documents textss
       /\ out = chunks ++ concat (zip_with chunk_documents documents textss).
Proof.
  revert chunks. induction documents as [|d documents IH]; intros chunks; simpl.
  { intros [= <- <-]. split; [done|]. exists []. split; [constructor|].
    by rewrite app_nil_r. }
  unfold exec_bind at 1. unfold exec_lift.
  destruct (from_text fuel self (get_content d)) as [texts|] eqn:Hd; [|done].
  unfold exec_bind at 1. rewrite append_chunks_run.
  intros (-> & textss & Hall & ->)%IH. split; [done|].
  exists (texts :: textss). split; [by constructor|].
  simpl. by rewrite <- app_assoc.
Qed.

(** X5: [from_documents] returns only when [from_text] returns on the
    text of every document; the store of mappings is then as it was and
    the result is, document after document, one [Document] per chunk on
    the reference of the source's mapping.  One document that cannot be
    split leaves no partial result. *)
Theorem from_documents_returns_all fuel self documents h out h' :
  from_documents fuel self documents h = Some (out, h') ->
  h' = h
  /\ exists textss,
       Forall2 (fun d texts => from_text fuel self (get_content d) = Some texts)
               documents textss
       /\ out = concat (zip_with chunk_documents documents textss)
       /\ Forall (fun c => exists d, d ∈ documents
                                     /\ get_metadata c = get_metadata d) out.
Proof.
  intros (-> & textss & Hall & ->)%documents_loop_inv. split; [done|].
  exists textss. split; [done|]. split; [done|]. simpl.
  clear -Hall. induction Hall as [|d texts documents textss _ _ IH]; simpl.
  { constructor. }
  apply Forall_app. split.
  - apply Forall_map, Forall_true. intros t. exists d. split; [by left | done].
  - eapply Forall_impl; [exact IH|]. intros c (d' & Hin & Heq).
    exists d'. split; [by right | done].
Qed.

(** X6: splitting two batches of documents one after the other gives
    the documents of the first followed by those of the second: no state
    is carried from one document to the next. *)
Theorem from_documents_app fuel self documents1 documents2 h out1 out2 :
  from_documents fuel self documents1 h = Some (out1, h) ->
  from_documents fuel self documents2 h = Some (out2, h) ->
  from_documents fuel self (documents1 ++ documents2) h = Some (out1 ++ out2, h).
Proof.
  intros (_ & textss1 & Hall1 & ->)%documents_loop_inv
         (_ & textss2 & Hall2 & ->)%documents_loop_inv.
  unfold from_documents.
  rewrite (documents_loop_run fuel self _ (textss1 ++ textss2)).
  - simpl. f_equal. f_equal.
    rewrite zip_with_app by (by eapply Forall2_length).
    by rewrite concat_app.
  - by apply Forall2_app.
Qed.

End SplitterMore.

(** X3: the flag that [split_by_fns] returns next to the sub-texts is
    discarded by [_split]: two implementations of the helpers that count
    tokens alike and return the same sub-texts give the same fragments. *)
Theorem _split_flag_discarded (U1 U2 : Utils) fuel self txt :
  (forall t, @token_len U1 t = @token_len U2 t) ->
  (forall t fns sub_fns,
     (@split_by_fns U1 t fns sub_fns).1 = (@split_by_fns U2 t fns sub_fns).1) ->
  @_split U1 fuel self txt = @_split U2 fuel self txt.
Proof. apply _split_ignores_flag. Qed.

(** Seven words with a budget of three. *)
Lemma _split_never_over_budget_witness :
  exists frags,
    _split 2 (splitter 3 1) "a b c d e f g" = Some frags
    /\ Forall (fun f => token_size f = token_len (text f)
                        /\ token_size f <= chunk_size (splitter 3 1)) frags.
Proof.
  eexists. split; [reflexivity|].
  apply (_split_never_over_budget 2 (splitter 3 1) "a b c d e f g"). reflexivity.
Defined.

(** One character with a budget of zero. *)
Lemma _split_unsplittable_never_returns_witness :
  (chunk_size (splitter 0 0) < token_len "a"
   /\ (split_by_fns "a" (_split_fns (splitter 0 0)) (_sub_split_fns (splitter 0 0))).1
      = ["a"])
  /\ forall fuel, _split fuel (splitter 0 0) "a" = None.
Proof.
  split; [split; reflexivity|].
  apply (_split_unsplittable_never_returns (splitter 0 0) "a"); reflexivity.
Defined.

(** Seven words with a budget of three, with and without the flag. *)
Lemma _split_flag_discarded_witness :
  ((forall t, @token_len SpecUtils t = @token_len flagged_utils t)
   /\ (forall t fns sub_fns,
         (@split_by_fns SpecUtils t fns sub_fns).1
         = (@split_by_fns flagged_utils t fns sub_fns).1))
  /\ @_split SpecUtils 2 (splitter 3 1) "a b c d e f g"
     = @_split flagged_utils 2 (splitter 3 1) "a b c d e f g".
Proof.
  split; [split; reflexivity|].
  apply (_split_flag_discarded SpecUtils flagged_utils 2 (splitter 3 1) "a b c d e f g");
    reflexivity.
Defined.

(** Seven words fall to single characters, each within a budget of
    three. *)
Lemma _split_one_level_witness :
  (chunk_size (splitter 3 1) < token_len "a b c d e f g"
   /\ Forall (fun sub => token_len sub <= chunk_size (splitter 3 1))
        (split_by_fns "a b c d e f g" (_split_fns (splitter 3 1))
           (_sub_split_fns (splitter 3 1))).1)
  /\ _split 1 (splitter 3 1) "a b c d e f g"
     = Some (map (fun sub => {| text := sub; is_sentence := false;
                                token_size := token_len sub |})
               (split_by_fns "a b c d e f g" (_split_fns (splitter 3 1))
                  (_sub_split_fns (splitter 3 1))).1).
Proof.
  assert (Forall (fun sub => token_len sub <= chunk_size (splitter 3 1))
            (split_by_fns "a b c d e f g" (_split_fns (splitter 3 1))
               (_sub_split_fns (splitter 3 1))).1) as Hfit.
  { vm_compute. repeat constructor; discriminate. }
  split; [split; [reflexivity | exact Hfit]|].
  apply (_split_one_level 0 (splitter 3 1) "a b c d e f g"); [reflexivity | exact Hfit].
Defined.

(** The example document, split into its three chunks. *)
Lemma from_documents_returns_all_witness :
  from_documents 2 (splitter 3 1) [example_document] example_store
  = Some (chunk_documents example_document example_texts, example_store)
  /\ example_store = example_store
  /\ exists textss,
       Forall2 (fun d texts => from_text 2 (splitter 3 1) (get_content d) = Some texts)
               [example_document] textss
       /\ chunk_documents example_document example_texts
          = concat (zip_with chunk_documents [example_document] textss)
       /\ Forall (fun c => exists d, d ∈ [example_document]
                                     /\ get_metadata c = get_metadata d)
            (chunk_documents example_document example_texts).
Proof.
  split; [reflexivity|].
  apply (from_documents_returns_all 2 (splitter 3 1) [example_document] example_store).
  reflexivity.
Defined.

(** The example document, twice. *)
Lemma from_documents_app_witness :
  (from_documents 2 (splitter 3 1) [example_document] example_store
   = Some (chunk_documents example_document example_texts, example_store)
   /\ from_documents 2 (splitter 3 1) [example_document] example_store
      = Some (chunk_documents example_document example_texts, example_store))
  /\ from_documents 2 (splitter 3 1) ([example_document] ++ [example_document])
       example_store
     = Some (chunk_documents example_document example_texts
             ++ chunk_documents example_document example_texts, example_store).
Proof.
  split; [split; reflexivity|].
  apply (from_documents_app 2 (splitter 3 1) [example_document] [example_document]);
    reflexivity.
Defined.

(** ** [KnowledgeBaseCoverage.compute_metric] *)

Section CoverageFacts.
Context {Embedding Float : Type}.
Variable get_query_embedding : string -> Embedding.
Variable similarity : Embedding -> Embedding -> Coverage.Mode -> Float.
Variable mean : list Float -> Float.
Variable ge : Float -> Float -> bool.

Lemma foldl_snoc_map {A B} (f : A -> B) (l : list A) (acc : list B) :
  foldl (fun scores x => scores ++ [f x]) acc l = acc ++ map f l.
Proof.
  revert acc. induction l as [|x l IH]; intros acc; simpl.
  - by rewrite app_nil_r.
  - by rewrite IH, <- app_assoc.
Qed.

(** X7: [compute_metric] raises [ValueError] exactly when there is no
    context or the candidate is the empty string. *)
Theorem compute_metric_error_iff (self : Coverage.KnowledgeBaseCoverage)
    contexts candidate :
  Coverage.compute_metric get_query_embedding similarity mean ge self contexts candidate
  = inl Coverage.ValueError
  <-> contexts = [] \/ candidate = "".
Proof.
  unfold Coverage.compute_metric.
  destruct (bool_decide_reflect (contexts = [])) as [->|Hc]; simpl.
  { split; [by left | done]. }
  destruct (bool_decide_reflect (candidate = "")) as [->|Hd]; simpl.
  { split; [by right | done]. }
  split; [done | by intros [?|?]].
Qed.

(** X8: given a context and a candidate, [compute_metric] scores every
    context against the candidate, one score per context and in the order
    of the contexts; the score is the mean of these and [passing] tells
    whether it reaches the threshold. *)
Theorem compute_metric_scores (self : Coverage.KnowledgeBaseCoverage)
    contexts candidate :
  contexts <> [] ->
  candidate <> "" ->
  exists metric,
    Coverage.compute_metric get_query_embedding similarity mean ge self contexts candidate
    = inr metric
    /\ Coverage.contexts_score metric
       = map (fun context =>
                similarity (get_query_embedding candidate) (get_query_embedding context)
                  (Coverage.similarity_mode self))
             contexts
    /\ length (Coverage.contexts_score metric) = length contexts
    /\ Coverage.score metric = mean (Coverage.contexts_score metric)
    /\ Coverage.passing metric
       = ge (Coverage.score metric) (Coverage.similarity_threshold self).
Proof.
  intros Hc Hd. unfold Coverage.compute_metric.
  rewrite (bool_decide_eq_false_2 _ Hc), (bool_decide_eq_false_2 _ Hd). simpl.
  eexists. split; [done|]. simpl.
  rewrite (foldl_snoc_map (fun context =>
             similarity (get_query_embedding candidate) (get_query_embedding context)
               (Coverage.similarity_mode self))).
  simpl. by rewrite length_map.
Qed.

End CoverageFacts.

(** Two contexts scored against a candidate of four characters. *)
Lemma compute_metric_scores_witness :
  (["ab"; "abcdef"] <> [] /\ "abcd" <> "")
  /\ exists metric,
       Coverage.compute_metric length_embedding (fun a b _ => a - b) integer_mean Z.geb
         (Coverage.mkCoverage Coverage.cosine 0) ["ab"; "abcdef"] "abcd"
       = inr metric
       /\ Coverage.contexts_score metric
          = map (fun context => length_embedding "abcd" - length_embedding context)
                ["ab"; "abcdef"]
       /\ length (Coverage.contexts_score metric) = length ["ab"; "abcdef"]
       /\ Coverage.score metric = integer_mean (Coverage.contexts_score metric)
       /\ Coverage.passing metric = Z.geb (Coverage.score metric) 0.
Proof.
  split; [split; discriminate|].
  apply (compute_metric_scores length_embedding (fun a b _ => a - b) integer_mean Z.geb
           (Coverage.mkCoverage Coverage.cosine 0) ["ab"; "abcdef"] "abcd");
    discriminate.
Defined.

(** ** [WatsonxEmbedding.__init__] *)

(** X9: without the package, construction raises [ImportError] whatever
    the fields; with it, construction raises [ValueError] exactly when
    neither [project_id] nor [space_id] is a non-empty string. *)
Theorem watsonx_init_error_iff (self : Watsonx.WatsonxEmbedding) :
  Watsonx.__init__ false self = inl Watsonx.ImportError
  /\ (Watsonx.__init__ true self = inl Watsonx.ValueError
      <-> Watsonx.truthy (Watsonx.project_id self) = false
          /\ Watsonx.truthy (Watsonx.space_id self) = false).
Proof.
  split; [done|]. unfold Watsonx.__init__. simpl.
  destruct (Watsonx.truthy (Watsonx.project_id self)); simpl.
  { split; [done | by intros [? _]]. }
  destruct (Watsonx.truthy (Watsonx.space_id self)); simpl.
  { split; [done | by intros [_ ?]]. }
  done.
Qed.

(** X10: the client is built for one scope only: with [project_id] when
    it is given, even if [space_id] is given too, and with [space_id]
    otherwise; the model, the parameters and the credentials are always
    passed. *)
Theorem watsonx_init_scope (self : Watsonx.WatsonxEmbedding) kwargs_params :
  Watsonx.__init__ true self = inr kwargs_params ->
  kwargs_params !! "model_id" = Some (Watsonx.Str (Watsonx.model_name self))
  /\ kwargs_params !! "params"
     = Some (Watsonx.Params (Watsonx.truncate_input_tokens self) false)
  /\ kwargs_params !! "credentials"
     = Some (Watsonx.Credentials (Watsonx.api_key self) (Watsonx.url self))
  /\ ((Watsonx.truthy (Watsonx.project_id self) = true
       /\ kwargs_params !! "project_id" = Some (Watsonx.value_of (Watsonx.project_id self))
       /\ kwargs_params !! "space_id" = None)
      \/ (Watsonx.truthy (Watsonx.project_id self) = false
          /\ Watsonx.truthy (Watsonx.space_id self) = true
          /\ kwargs_params !! "space_id" = Some (Watsonx.value_of (Watsonx.space_id self))
          /\ kwargs_params !! "project_id" = None)).
Proof.
  unfold Watsonx.__init__. simpl.
  destruct (Watsonx.truthy (Watsonx.project_id self)) eqn:Hp; simpl.
  - intros [= <-]. repeat split; try done. left. by repeat split.
  - destruct (Watsonx.truthy (Watsonx.space_id self)) eqn:Hs; simpl; [|done].
    intros [= <-]. repeat split; try done. right. by repeat split.
Qed.

(** A project and a space given together: the project is kept. *)
Lemma watsonx_init_scope_witness :
  exists kwargs_params,
    Watsonx.__init__ true
      (Watsonx.mkWatsonx "ibm/slate-30m-english-rtrvr" "key" "url" 512
         (Some "project") (Some "space"))
    = inr kwargs_params
    /\ kwargs_params !! "project_id" = Some (Watsonx.Str "project")
    /\ kwargs_params !! "space_id" = None.
Proof.
  eexists. split; [reflexivity|].
  destruct (watsonx_init_scope
              (Watsonx.mkWatsonx "ibm/slate-30m-english-rtrvr" "key" "url" 512
                 (Some "project") (Some "space")) _ eq_refl)
    as (_ & _ & _ & [(_ & Hp & Hs)|(Hp & _)]).
  - split; [exact Hp | exact Hs].
  - discriminate Hp.
Defined.

(** ** [ChromaVectorStore] *)

Section ChromaFacts.
Context {Embedding Distance : Type}.
Variable uuid4 : nat -> string.
Variable get_query_embedding : string -> Embedding.
Variable collection_query : Embedding -> Z -> @Chroma.QueryResult Distance.

Implicit Types (w : @Chroma.World Embedding) (documents : list Chroma.Document).

Lemma chroma_add_loop_run documents embeddings metadatas ids chroma_documents w :
  Chroma.add_loop uuid4 get_query_embedding documents embeddings metadatas ids
    chroma_documents w
  = (embeddings ++ map (fun doc => get_query_embedding (Chroma.get_content doc)) documents,
     metadatas ++ map (fun doc => if Chroma.truthy_metadata (Chroma.get_metadata doc)
                                  then Chroma.get_metadata doc else None) documents,
     ids ++ assigned_ids uuid4 (Chroma.uuids_drawn w) (map Chroma.doc_id documents),
     chroma_documents ++ map Chroma.get_content documents,
     {| Chroma.uuids_drawn := Chroma.uuids_drawn w + length (without_id documents);
        Chroma.calls := Chroma.calls w |}).
Proof.
  revert embeddings metadatas ids chroma_documents w.
  induction documents as [|doc documents IH];
    intros embeddings metadatas ids chroma_documents w.
  { simpl. rewrite !app_nil_r, Nat.add_0_r. by destruct w. }
  cbn [Chroma.add_loop]. unfold without_id. rewrite filter_cons.
  destruct doc as [[id|] content metadata]; simpl.
  - destruct (bool_decide_reflect (id = "")) as [->|Hid]; simpl;
      rewrite IH; simpl; rewrite <- !app_assoc; simpl;
      repeat f_equal; try done; unfold without_id; lia.
  - rewrite IH. simpl. rewrite <- !app_assoc. simpl.
    repeat f_equal. unfold without_id. lia.
Qed.

Lemma assigned_ids_length n ids : length (assigned_ids uuid4 n ids) = length ids.
Proof.
  revert n. induction ids as [|[id|] ids IH]; intros n; simpl; [done| |by rewrite IH].
  destruct (bool_decide (id = "")); simpl; by rewrite IH.
Qed.

Lemma assigned_ids_lookup n documents i doc :
  documents !! i = Some doc ->
  assigned_ids uuid4 n (map Chroma.doc_id documents) !! i
  = Some (if Chroma.truthy (Chroma.doc_id doc) then default "" (Chroma.doc_id doc)
          else uuid4 (n + length (without_id (take i documents)))).
Proof.
  revert n i. induction documents as [|d documents IH]; intros n i; [done|].
  destruct i as [|i]; simpl.
  - intros [= ->]. rewrite Nat.add_0_r.
    destruct (Chroma.doc_id doc) as [id|]; simpl; [|done].
    by destruct (bool_decide (id = "")).
  - intros Hdoc. unfold without_id. rewrite filter_cons.
    destruct (Chroma.doc_id d) as [id|]; simpl.
    + destruct (bool_decide (id = "")); simpl.
      * rewrite (IH _ _ Hdoc). do 2 f_equal.
        destruct (Chroma.truthy (Chroma.doc_id doc)); [done|].
        f_equal. unfold without_id. lia.
      * apply (IH _ _ Hdoc).
    + rewrite (IH _ _ Hdoc).
      destruct (Chroma.truthy (Chroma.doc_id doc)); [done|].
      do 2 f_equal. unfold without_id. lia.
Qed.

(** X11: [add_documents] makes exactly one call to the collection, with
    four lists that have one entry per document, in the order of the
    documents: the embedding of the content, the identifiers it returns,
    the metadata (or [None] for an empty or missing mapping) and the
    content. *)
Theorem chroma_add_documents_aligned documents w :
  let '(ids, w') := Chroma.add_documents uuid4 get_query_embedding documents w in
  length ids = length documents
  /\ Chroma.calls w'
     = Chroma.calls w
       ++ [Chroma.Add
             (map (fun doc => get_query_embedding (Chroma.get_content doc)) documents)
             ids
             (map (fun doc => if Chroma.truthy_metadata (Chroma.get_metadata doc)
                              then Chroma.get_metadata doc else None) documents)
             (map Chroma.get_content documents)].
Proof.
  unfold Chroma.add_documents. rewrite chroma_add_loop_run. simpl.
  by rewrite assigned_ids_length, length_map.
Qed.

(** X12: a document that comes with a non-empty identifier keeps it; a
    document without one gets the next identifier drawn, so that the
    number of identifiers drawn is the number of documents without one. *)
Theorem chroma_add_documents_ids documents w i doc :
  documents !! i = Some doc ->
  (Chroma.add_documents uuid4 get_query_embedding documents w).1 !! i
  = Some (if Chroma.truthy (Chroma.doc_id doc) then default "" (Chroma.doc_id doc)
          else uuid4 (Chroma.uuids_drawn w + length (without_id (take i documents))))
  /\ Chroma.uuids_drawn (Chroma.add_documents uuid4 get_query_embedding documents w).2
     = (Chroma.uuids_drawn w + length (without_id documents))%nat.
Proof.
  intros Hdoc. unfold Chroma.add_documents. rewrite chroma_add_loop_run. simpl.
  split; [|done]. by apply assigned_ids_lookup.
Qed.

Lemma zip4_length (a b : list string) (c : list (option (gmap string string)))
    (d : list Distance) :
  length (Chroma.zip4 a b c d)
  = (length a `min` (length b `min` (length c `min` length d)))%nat.
Proof.
  revert b c d. induction a as [|x a IH]; intros [|y b] [|z c] [|t d]; simpl; try lia.
  rewrite IH. lia.
Qed.

Lemma zip4_lookup (a b : list string) (c : list (option (gmap string string)))
    (d : list Distance) n found :
  Chroma.zip4 a b c d !! n = Some found ->
  a !! n = Some (Chroma.found_id found)
  /\ b !! n = Some (Chroma.found_text found)
  /\ c !! n = Some (Chroma.found_metadata found)
  /\ d !! n = Some (Chroma.found_score found).
Proof.
  revert b c d n.
  induction a as [|x a IH]; intros [|y b] [|z c] [|t d] n; simpl; try done.
  destruct n as [|n]; simpl; [by intros [= <-] | apply IH].
Qed.

(** X13: when the collection answers the four lists of a result,
    [query] returns as many documents as the shortest of them holds, and
    the [n]-th document is made of the [n]-th identifier, text, metadata
    and distance; the distance is what is returned as score.  One call is
    made to the collection, for [top_k] results. *)
Theorem chroma_query_zip query top_k w ids0 ids' texts0 texts' metadatas0
    metadatas' distances0 distances' :
  collection_query (get_query_embedding query) top_k
  = Chroma.mkQueryResult (ids0 :: ids') (texts0 :: texts')
      (metadatas0 :: metadatas') (distances0 :: distances') ->
  exists found,
    Chroma.query get_query_embedding collection_query query top_k w
    = (inr found, Chroma.call (Chroma.Query (get_query_embedding query) top_k) w)
    /\ length found
       = (length ids0 `min` (length texts0
            `min` (length metadatas0 `min` length distances0)))%nat
    /\ forall n doc,
         found !! n = Some doc ->
         ids0 !! n = Some (Chroma.found_id doc)
         /\ texts0 !! n = Some (Chroma.found_text doc)
         /\ metadatas0 !! n = Some (Chroma.found_metadata doc)
         /\ distances0 !! n = Some (Chroma.found_score doc).
Proof.
  intros Hresult. unfold Chroma.query. rewrite Hresult. simpl.
  eexists. split; [done|]. split; [apply zip4_length|]. apply zip4_lookup.
Qed.

(** X14: [__init__] accepts the distance strategies [cosine], [ip] and
    [l2] only; for any other it raises [ValueError] and no collection is
    asked for.  Otherwise one collection is got or created, under the
    name given, or under a generated name when none is given. *)
Theorem chroma_init_strategy collection_name distance_strategy w :
  (distance_strategy ∉ ["cosine"; "ip"; "l2"] ->
   Chroma.__init__ uuid4 true collection_name distance_strategy w
   = (inl Chroma.ValueError, w))
  /\ (distance_strategy ∈ ["cosine"; "ip"; "l2"] ->
      exists name w',
        Chroma.__init__ uuid4 true collection_name distance_strategy w = (inr name, w')
        /\ Chroma.calls w'
           = Chroma.calls w ++ [Chroma.GetOrCreateCollection name distance_strategy]
        /\ match collection_name with
           | Some given => name = given /\ Chroma.uuids_drawn w' = Chroma.uuids_drawn w
           | None =>
               name = "auto-generated-"
                      +:+ String.substring 0 8 (uuid4 (Chroma.uuids_drawn w))
               /\ Chroma.uuids_drawn w' = S (Chroma.uuids_drawn w)
           end).
Proof.
  unfold Chroma.__init__. simpl. split; intros Hds.
  - by rewrite (bool_decide_eq_false_2 _ Hds).
  - rewrite (bool_decide_eq_true_2 _ Hds).
    destruct collection_name as [given|]; simpl; eexists _, _; done.
Qed.

End ChromaFacts.

(** Three documents, the second without an identifier. *)
Lemma chroma_add_documents_ids_witness :
  [Chroma.mkDocument (Some "a") "one" None;
   Chroma.mkDocument None "two" None;
   Chroma.mkDocument (Some "c") "three" None] !! 1%nat
  = Some (Chroma.mkDocument None "two" None)
  /\ (Chroma.add_documents example_uuid4 length_embedding
        [Chroma.mkDocument (Some "a") "one" None;
         Chroma.mkDocument None "two" None;
         Chroma.mkDocument (Some "c") "three" None]
        (Chroma.mkWorld 0 [])).1 !! 1%nat
     = Some "u0".
Proof.
  split; [reflexivity|].
  exact (proj1 (chroma_add_documents_ids example_uuid4 length_embedding
                  [Chroma.mkDocument (Some "a") "one" None;
                   Chroma.mkDocument None "two" None;
                   Chroma.mkDocument (Some "c") "three" None]
                  (Chroma.mkWorld 0 []) 1 (Chroma.mkDocument None "two" None) eq_refl)).
Defined.

(** A collection that answers two identifiers and three texts: two
    documents come back. *)
Lemma chroma_query_zip_witness :
  example_collection_query (length_embedding "q") 4
  = Chroma.mkQueryResult [["id1"; "id2"]] [["one"; "two"; "three"]] [[None; None]] [[1; 2]]
  /\ exists found,
       Chroma.query length_embedding example_collection_query "q" 4 (Chroma.mkWorld 0 [])
       = (inr found,
          Chroma.call (Chroma.Query (length_embedding "q") 4) (Chroma.mkWorld 0 []))
       /\ length found = 2%nat.
Proof.
  split; [reflexivity|].
  destruct (chroma_query_zip length_embedding example_collection_query "q" 4
              (Chroma.mkWorld 0 []) _ _ _ _ _ _ _ _ eq_refl)
    as (found & Hrun & Hlen & _).
  exists found. split; [exact Hrun | exact Hlen].
Defined.

(** ** [ElasticsearchVectorStore] *)

Section ElasticsearchFacts.
Context {Embedding Score : Type}.
Variable uuid4 : nat -> string.
Variable get_query_embedding : string -> Embedding.
Variable search :
  string -> @Elasticsearch.Knn Embedding -> Z -> list string
  -> list (@Elasticsearch.Hit Embedding Score).

Implicit Types (w : @Elasticsearch.World Embedding)
  (self : Elasticsearch.ElasticsearchVectorStore).

(** X15: [_create_index_if_not_exists] raises [ValueError] exactly
    when the index is missing and [dims_length] is [None], and then
    changes nothing.  Otherwise it returns: an index that exists is left
    alone with its mappings, whatever [dims_length] is; an index that is
    missing is created with the mappings of the store for the given
    [dims_length].  Once it has returned the index exists and a second
    call changes nothing.  No other index is touched and nothing else is
    asked of the client. *)
Theorem es_create_index_idempotent self w :
  let '(created, w') := Elasticsearch._create_index_if_not_exists self w in
  (created = inl Elasticsearch.ValueError
   <-> Elasticsearch.indices w !! Elasticsearch.index_name self = None
       /\ Elasticsearch.dims_length self = None)
  /\ (forall other, other <> Elasticsearch.index_name self ->
        Elasticsearch.indices w' !! other = Elasticsearch.indices w !! other)
  /\ Elasticsearch.calls w' = Elasticsearch.calls w
  /\ Elasticsearch.uuids_drawn w' = Elasticsearch.uuids_drawn w
  /\ match created with
     | inr _ =>
         ((is_Some (Elasticsearch.indices w !! Elasticsearch.index_name self) /\ w' = w)
          \/ (Elasticsearch.indices w !! Elasticsearch.index_name self = None
              /\ exists dims,
                   Elasticsearch.dims_length self = Some dims
                   /\ Elasticsearch.indices w'
                      = <[Elasticsearch.index_name self :=
                            Elasticsearch.index_mappings self dims]>
                          (Elasticsearch.indices w)))
         /\ is_Some (Elasticsearch.indices w' !! Elasticsearch.index_name self)
         /\ Elasticsearch._create_index_if_not_exists self w' = (inr tt, w')
     | inl e =>
         e = Elasticsearch.ValueError
         /\ w' = w
         /\ Elasticsearch.dims_length self = None
         /\ Elasticsearch.indices w !! Elasticsearch.index_name self = None
     end.
Proof.
  unfold Elasticsearch._create_index_if_not_exists.
  destruct (Elasticsearch.indices w !! Elasticsearch.index_name self) as [m|] eqn:Hidx.
  { split; [split; [done | by intros [? _]]|].
    repeat split; eauto. by rewrite Hidx. }
  destruct (Elasticsearch.dims_length self) as [dims|] eqn:Hdims; simpl.
  - split; [split; [done | by intros [_ ?]]|].
    split; [intros other Hother; by rewrite lookup_insert_ne|].
    split; [done|]. split; [done|]. rewrite lookup_insert_eq.
    split; [right; split; [done|]; by exists dims|].
    split; [by eexists | done].
  - by repeat split.
Qed.

Lemma es_create_index_cases self w :
  Elasticsearch._create_index_if_not_exists self w = (inl Elasticsearch.ValueError, w)
  \/ exists w',
       Elasticsearch._create_index_if_not_exists self w = (inr tt, w')
       /\ Elasticsearch.calls w' = Elasticsearch.calls w.
Proof.
  unfold Elasticsearch._create_index_if_not_exists.
  destruct (Elasticsearch.indices w !! Elasticsearch.index_name self).
  { right. by exists w. }
  destruct (Elasticsearch.dims_length self); [|by left].
  right. by eexists.
Qed.

Lemma es_action_ok self _id doc :
  has_required_keys doc ->
  exists a,
    Elasticsearch.action get_query_embedding self _id doc = inr a
    /\ a !! "metadata" = Some (Elasticsearch.Mapping (Elasticsearch.get_metadata doc))
    /\ Forall (fun key =>
         exists v,
           Elasticsearch.get_metadata doc !! key = Some v
           /\ a !! ("metadata." +:+ key)
              = Some (if Elasticsearch.truthy_value v then Elasticsearch.of_meta v
                      else Elasticsearch.Null)) required_keys.
Proof.
  unfold has_required_keys, required_keys.
  intros Hkeys.
  apply Forall_cons in Hkeys as [[v1 H1] Hkeys].
  apply Forall_cons in Hkeys as [[v2 H2] Hkeys].
  apply Forall_cons in Hkeys as [[v3 H3] Hkeys].
  apply Forall_cons in Hkeys as [[v4 H4] _].
  unfold Elasticsearch.action, Elasticsearch.item_or_none.
  rewrite H1, H2, H3, H4. eexists. split; [done|]. split.
  { by simplify_map_eq. }
  repeat constructor; eexists; (split; [eassumption|]);
    change ("metadata." +:+ ?k) with ("metadata." +:+ k); by simplify_map_eq.
Qed.

Lemma es_action_missing self _id doc :
  ~ has_required_keys doc ->
  exists present key absent,
    required_keys = present ++ key :: absent
    /\ Forall (fun k => is_Some (Elasticsearch.get_metadata doc !! k)) present
    /\ Elasticsearch.get_metadata doc !! key = None
    /\ Elasticsearch.action get_query_embedding self _id doc
       = inl (Elasticsearch.KeyError key).
Proof.
  unfold has_required_keys, required_keys. intros Hmissing.
  unfold Elasticsearch.action, Elasticsearch.item_or_none.
  destruct (Elasticsearch.get_metadata doc !! "creation_date") as [v1|] eqn:H1;
    [|exists [], "creation_date", ["filename"; "file_type"; "page"];
      by repeat split].
  destruct (Elasticsearch.get_metadata doc !! "filename") as [v2|] eqn:H2;
    [|exists ["creation_date"], "filename", ["file_type"; "page"];
      repeat split; try done; repeat constructor; by rewrite H1].
  destruct (Elasticsearch.get_metadata doc !! "file_type") as [v3|] eqn:H3;
    [|exists ["creation_date"; "filename"], "file_type", ["page"];
      repeat split; try done; repeat constructor; by rewrite ?H1, ?H2].
  destruct (Elasticsearch.get_metadata doc !! "page") as [v4|] eqn:H4;
    [|exists ["creation_date"; "filename"; "file_type"], "page", [];
      repeat split; try done; repeat constructor; by rewrite ?H1, ?H2, ?H3].
  destruct Hmissing. repeat constructor; by eexists.
Qed.

Lemma has_required_keys_dec doc : has_required_keys doc \/ ~ has_required_keys doc.
Proof. unfold has_required_keys. destruct (decide (Forall (fun key =>
         is_Some (Elasticsearch.get_metadata doc !! key)) required_keys)); auto. Qed.

Lemma es_add_loop_ok self documents vector_store_data w :
  Forall has_required_keys documents ->
  exists actions w',
    Elasticsearch.add_loop uuid4 get_query_embedding self documents vector_store_data w
    = (inr (vector_store_data ++ actions), w')
    /\ Elasticsearch.calls w' = Elasticsearch.calls w
    /\ Elasticsearch.indices w' = Elasticsearch.indices w
    /\ Forall2 (fun doc a =>
         exists _id,
           Elasticsearch.action get_query_embedding self _id doc = inr a
           /\ (Elasticsearch.truthy (Elasticsearch.doc_id doc) = true ->
               Elasticsearch.doc_id doc = Some _id)) documents actions.
Proof.
  intros Hall. revert vector_store_data w.
  induction Hall as [|doc documents Hdoc _ IH]; intros vector_store_data w.
  { exists [], w. rewrite app_nil_r. by repeat split. }
  cbn [Elasticsearch.add_loop].
  destruct (Elasticsearch.truthy (Elasticsearch.doc_id doc)) eqn:Hid.
  - destruct (es_action_ok self (default "" (Elasticsearch.doc_id doc)) doc Hdoc)
      as (a & Ha & _).
    rewrite Ha.
    destruct (IH (vector_store_data ++ [a]) w) as (actions & w' & -> & ? & ? & ?).
    exists (a :: actions), w'. rewrite <- app_assoc. repeat split; try done.
    constructor; [|done]. eexists. split; [exact Ha|].
    intros _. by destruct (Elasticsearch.doc_id doc).
  - unfold Elasticsearch.draw. simpl.
    destruct (es_action_ok self (uuid4 (Elasticsearch.uuids_drawn w)) doc Hdoc)
      as (a & Ha & _).
    rewrite Ha.
    destruct (IH (vector_store_data ++ [a])
                {| Elasticsearch.indices := Elasticsearch.indices w;
                   Elasticsearch.uuids_drawn := S (Elasticsearch.uuids_drawn w);
                   Elasticsearch.calls := Elasticsearch.calls w |})
      as (actions & w' & -> & ? & ? & ?).
    exists (a :: actions), w'. rewrite <- app_assoc. repeat split; try done.
    constructor; [|done]. eexists. split; [exact Ha|]. intros ?. congruence.
Qed.

Lemma es_add_loop_missing self documents vector_store_data w :
  Exists (fun doc => ~ has_required_keys doc) documents ->
  exists before doc after present key absent w',
    documents = before ++ doc :: after
    /\ Forall has_required_keys before
    /\ required_keys = present ++ key :: absent
    /\ Forall (fun k => is_Some (Elasticsearch.get_metadata doc !! k)) present
    /\ Elasticsearch.get_metadata doc !! key = None
    /\ Elasticsearch.add_loop uuid4 get_query_embedding self documents vector_store_data w
       = (inl (Elasticsearch.KeyError key), w')
    /\ Elasticsearch.calls w' = Elasticsearch.calls w
    /\ Elasticsearch.indices w' = Elasticsearch.indices w.
Proof.
  revert vector_store_data w.
  induction documents as [|doc documents IH]; intros vector_store_data w Hex.
  { by apply Exists_nil in Hex. }
  cbn [Elasticsearch.add_loop].
  destruct (has_required_keys_dec doc) as [Hdoc|Hdoc].
  - apply Exists_cons in Hex as [?|Hex]; [done|].
    destruct (Elasticsearch.truthy (Elasticsearch.doc_id doc)).
    + destruct (es_action_ok self (default "" (Elasticsearch.doc_id doc)) doc Hdoc)
        as (a & -> & _).
      destruct (IH (vector_store_data ++ [a]) w Hex)
        as (before & d & after & present & key & absent & w'
            & -> & ? & ? & ? & ? & -> & ? & ?).
      exists (doc :: before), d, after, present, key, absent, w'.
      repeat split; try done. by constructor.
    + unfold Elasticsearch.draw. simpl.
      destruct (es_action_ok self (uuid4 (Elasticsearch.uuids_drawn w)) doc Hdoc)
        as (a & -> & _).
      destruct (IH (vector_store_data ++ [a])
                  {| Elasticsearch.indices := Elasticsearch.indices w;
                     Elasticsearch.uuids_drawn := S (Elasticsearch.uuids_drawn w);
                     Elasticsearch.calls := Elasticsearch.calls w |} Hex)
        as (before & d & after & present & key & absent & w'
            & -> & ? & ? & ? & ? & -> & ? & ?).
      exists (doc :: before), d, after, present, key, absent, w'.
      repeat split; try done. by constructor.
  - destruct (Elasticsearch.truthy (Elasticsearch.doc_id doc)).
    + destruct (es_action_missing self (default "" (Elasticsearch.doc_id doc)) doc Hdoc)
        as (present & key & absent & ? & ? & ? & ->).
      exists [], doc, documents, present, key, absent, w. by repeat split.
    + unfold Elasticsearch.draw. simpl.
      destruct (es_action_missing self (uuid4 (Elasticsearch.uuids_drawn w)) doc Hdoc)
        as (present & key & absent & ? & ? & ? & ->).
      eexists [], doc, documents, present, key, absent, _. by repeat split.
Qed.

(** X16: when the metadata of some document lacks one of the keys
    [creation_date], [filename], [file_type] and [page],
    [add_documents] does not reach [bulk].  If the index is to be
    created first and that raises, the error is that one and nothing has
    changed.  Otherwise it raises [KeyError] on the first of the four
    keys that the first such document lacks; nothing is sent to [bulk],
    not even the documents before it, while an index created on the way
    stays created. *)
Theorem es_add_documents_missing_key self documents (create : bool) w :
  Exists (fun doc => ~ has_required_keys doc) documents ->
  let '(created, w1) :=
    if create then Elasticsearch._create_index_if_not_exists self w
    else (@inr Elasticsearch.Error unit tt, w) in
  match created with
  | inl e =>
      e = Elasticsearch.ValueError
      /\ w1 = w
      /\ Elasticsearch.add_documents uuid4 get_query_embedding self documents create w
         = (inl Elasticsearch.ValueError, w)
  | inr _ =>
      exists before doc after present key absent w',
        documents = before ++ doc :: after
        /\ Forall has_required_keys before
        /\ required_keys = present ++ key :: absent
        /\ Forall (fun k => is_Some (Elasticsearch.get_metadata doc !! k)) present
        /\ Elasticsearch.get_metadata doc !! key = None
        /\ Elasticsearch.add_documents uuid4 get_query_embedding self documents create w
           = (inl (Elasticsearch.KeyError key), w')
        /\ Elasticsearch.calls w' = Elasticsearch.calls w
        /\ Elasticsearch.indices w' = Elasticsearch.indices w1
  end.
Proof.
  intros Hex. unfold Elasticsearch.add_documents.
  destruct create.
  - destruct (es_create_index_cases self w) as [->|(w1 & -> & Hcalls)]; [done|].
    destruct (es_add_loop_missing self documents [] w1 Hex)
      as (before & doc & after & present & key & absent & w'
          & ? & ? & ? & ? & ? & -> & ? & ?).
    exists before, doc, after, present, key, absent, w'.
    repeat split; try done. congruence.
  - destruct (es_add_loop_missing self documents [] w Hex)
      as (before & doc & after & present & key & absent & w'
          & ? & ? & ? & ? & ? & -> & ? & ?).
    by exists before, doc, after, present, key, absent, w'.
Qed.

(** X17: when every document has the four metadata keys,
    [add_documents] makes one call to [bulk], with [batch_size] and one
    action per document, in order.  An action carries the metadata
    mapping as it is under [metadata], and each of the four values again
    under [metadata.<key>], where a value that is [None], [""] or [0]
    is sent as [None]; a document that has an identifier is filed under
    it. *)
Theorem es_add_documents_bulk self documents create w :
  (create = true ->
   (Elasticsearch._create_index_if_not_exists self w).1 = inr tt) ->
  Forall has_required_keys documents ->
  exists actions w',
    Elasticsearch.add_documents uuid4 get_query_embedding self documents create w
    = (inr tt, w')
    /\ Elasticsearch.calls w'
       = Elasticsearch.calls w
         ++ [Elasticsearch.Bulk actions (Elasticsearch.batch_size self)]
    /\ length actions = length documents
    /\ Forall2 (fun doc a =>
         a !! "metadata" = Some (Elasticsearch.Mapping (Elasticsearch.get_metadata doc))
         /\ Forall (fun key =>
              exists v,
                Elasticsearch.get_metadata doc !! key = Some v
                /\ a !! ("metadata." +:+ key)
                   = Some (if Elasticsearch.truthy_value v then Elasticsearch.of_meta v
                           else Elasticsearch.Null)) required_keys
         /\ (Elasticsearch.truthy (Elasticsearch.doc_id doc) = true ->
             exists _id,
               Elasticsearch.doc_id doc = Some _id
               /\ Elasticsearch.action get_query_embedding self _id doc = inr a))
       documents actions.
Proof.
  intros Hcreate Hall. unfold Elasticsearch.add_documents.
  assert (forall w1, Elasticsearch.calls w1 = Elasticsearch.calls w ->
    exists actions w',
      (let '(data, w2) :=
         Elasticsearch.add_loop uuid4 get_query_embedding self documents [] w1 in
       match data with
       | inl e => (inl e, w2)
       | inr vector_store_data =>
           (inr tt, Elasticsearch.call
                      (Elasticsearch.Bulk vector_store_data (Elasticsearch.batch_size self))
                      w2)
       end) = (inr tt, w')
      /\ Elasticsearch.calls w'
         = Elasticsearch.calls w
           ++ [Elasticsearch.Bulk actions (Elasticsearch.batch_size self)]
      /\ length actions = length documents
      /\ Forall2 (fun doc a =>
           a !! "metadata" = Some (Elasticsearch.Mapping (Elasticsearch.get_metadata doc))
           /\ Forall (fun key =>
                exists v,
                  Elasticsearch.get_metadata doc !! key = Some v
                  /\ a !! ("metadata." +:+ key)
                     = Some (if Elasticsearch.truthy_value v then Elasticsearch.of_meta v
                             else Elasticsearch.Null)) required_keys
           /\ (Elasticsearch.truthy (Elasticsearch.doc_id doc) = true ->
               exists _id,
                 Elasticsearch.doc_id doc = Some _id
                 /\ Elasticsearch.action get_query_embedding self _id doc = inr a))
         documents actions) as Hloop.
  { intros w1 Hcalls.
    destruct (es_add_loop_ok self documents [] w1 Hall)
      as (actions & w2 & -> & Hcalls2 & _ & Hactions).
    exists actions, (Elasticsearch.call
                       (Elasticsearch.Bulk actions (Elasticsearch.batch_size self)) w2).
    split; [done|]. split; [simpl; congruence|].
    split; [symmetry; by eapply Forall2_length|].
    clear -Hactions Hall.
    induction Hactions as [|doc a documents actions (_id & Ha & Hid) _ IH];
      [constructor|].
    apply Forall_cons in Hall as [Hdoc Hall].
    constructor; [|by apply IH].
    destruct (es_action_ok self _id doc Hdoc) as (a' & Ha' & Hmeta & Hkeys).
    assert (a' = a) as -> by congruence.
    split; [done|]. split; [done|].
    intros Htruthy. exists _id. split; [by apply Hid | done]. }
  destruct create.
  - specialize (Hcreate eq_refl).
    destruct (es_create_index_cases self w) as [Hfail|(w1 & Hrun & Hcalls)].
    { by rewrite Hfail in Hcreate. }
    rewrite Hrun. by apply Hloop.
  - by apply Hloop.
Qed.

Lemma es_read_hits_ok (hits : list (@Elasticsearch.Hit Embedding Score)) :
  Forall (fun hit => is_Some (Elasticsearch._source hit !! "text")
                     /\ is_Some (Elasticsearch._source hit !! "metadata")) hits ->
  exists found,
    Elasticsearch.read_hits hits = inr found
    /\ Forall2 (fun hit doc =>
         Elasticsearch.found_id doc = Elasticsearch._id hit
         /\ Elasticsearch._source hit !! "text" = Some (Elasticsearch.found_text doc)
         /\ Elasticsearch._source hit !! "metadata"
            = Some (Elasticsearch.found_metadata doc)
         /\ Elasticsearch.found_score doc = Elasticsearch._score hit) hits found.
Proof.
  induction 1 as [|hit hits [[t Ht] [m Hm]] _ (found & IH & Hall)]; simpl.
  { exists []. by split; [|constructor]. }
  unfold Elasticsearch.source_item. rewrite Ht, Hm, IH.
  eexists. split; [done|]. by constructor.
Qed.

(** X18: [query] asks for [top_k] hits with [top_k * 10] candidates on
    the vector field, the vector left out of the sources; when every hit
    has [text] and [metadata] in its source, it returns one document per
    hit, in order, made of the identifier, these two values and the
    score of the hit. *)
Theorem es_query_hits self query top_k w :
  let knn :=
    {| Elasticsearch.field := Elasticsearch.vector_field self;
       Elasticsearch.query_vector := get_query_embedding query;
       Elasticsearch.k := top_k;
       Elasticsearch.num_candidates := top_k * 10 |} in
  let hits :=
    search (Elasticsearch.index_name self) knn top_k [Elasticsearch.vector_field self] in
  Forall (fun hit => is_Some (Elasticsearch._source hit !! "text")
                     /\ is_Some (Elasticsearch._source hit !! "metadata")) hits ->
  exists found,
    Elasticsearch.query get_query_embedding search self query top_k w
    = (inr found,
       Elasticsearch.call
         (Elasticsearch.Search (Elasticsearch.index_name self) knn top_k
            [Elasticsearch.vector_field self]) w)
    /\ Forall2 (fun hit doc =>
         Elasticsearch.found_id doc = Elasticsearch._id hit
         /\ Elasticsearch._source hit !! "text" = Some (Elasticsearch.found_text doc)
         /\ Elasticsearch._source hit !! "metadata"
            = Some (Elasticsearch.found_metadata doc)
         /\ Elasticsearch.found_score doc = Elasticsearch._score hit) hits found.
Proof.
  intros knn hits Hall. unfold Elasticsearch.query. fold knn. fold hits.
  destruct (es_read_hits_ok hits Hall) as (found & -> & Hfound).
  by exists found.
Qed.

(** X19: [query] reads the text of a hit under the key [text], not under
    the [text_field] of the store: a first hit without the key [text]
    makes it raise [KeyError], whatever the source holds under
    [text_field]. *)
Theorem es_query_reads_text_key self query top_k w hit hits :
  search (Elasticsearch.index_name self)
    {| Elasticsearch.field := Elasticsearch.vector_field self;
       Elasticsearch.query_vector := get_query_embedding query;
       Elasticsearch.k := top_k;
       Elasticsearch.num_candidates := top_k * 10 |}
    top_k [Elasticsearch.vector_field self]
  = hit :: hits ->
  Elasticsearch._source hit !! "text" = None ->
  (Elasticsearch.query get_query_embedding search self query top_k w).1
  = inl (Elasticsearch.KeyError "text").
Proof.
  intros Hsearch Htext. unfold Elasticsearch.query. rewrite Hsearch. simpl.
  unfold Elasticsearch.source_item. by rewrite Htext.
Qed.

Lemma es_delete_loop_calls self (ids : list string) w :
  let w' :=
    foldl (fun w id =>
             Elasticsearch.call (Elasticsearch.DeleteDoc (Elasticsearch.index_name self) id) w)
          w ids in
  Elasticsearch.calls w'
  = Elasticsearch.calls w
    ++ map (Elasticsearch.DeleteDoc (Elasticsearch.index_name self)) ids
  /\ Elasticsearch.indices w' = Elasticsearch.indices w
  /\ Elasticsearch.uuids_drawn w' = Elasticsearch.uuids_drawn w.
Proof.
  revert w. induction ids as [|id ids IH]; intros w; simpl.
  { by rewrite app_nil_r. }
  destruct (IH (Elasticsearch.call
                  (Elasticsearch.DeleteDoc (Elasticsearch.index_name self) id) w))
    as (-> & -> & ->).
  simpl. by rewrite <- app_assoc.
Qed.

(** X20: [delete_documents] raises [ValueError] when no identifier is
    given, [None] or the empty list, and then asks nothing of the client;
    otherwise it asks the client to delete each identifier in turn, one
    call per identifier, repeated identifiers included. *)
Theorem es_delete_documents self (ids : option (list string)) w :
  ((ids = None \/ ids = Some []) ->
   Elasticsearch.delete_documents self ids w = (inl Elasticsearch.ValueError, w))
  /\ (forall given, ids = Some given -> given <> [] ->
      exists w',
        Elasticsearch.delete_documents self ids w = (inr tt, w')
        /\ Elasticsearch.calls w'
           = Elasticsearch.calls w
             ++ map (Elasticsearch.DeleteDoc (Elasticsearch.index_name self)) given
        /\ Elasticsearch.indices w' = Elasticsearch.indices w).
Proof.
  split.
  - by intros [->| ->].
  - intros given -> Hne. destruct given as [|id given]; [done|].
    eexists. split; [done|].
    destruct (es_delete_loop_calls self (id :: given) w) as (Hc & Hi & _).
    by split.
Qed.

End ElasticsearchFacts.

(** A document with a date and no file name, after one that has the
    four keys, sent to a store whose index does not exist yet. *)
Lemma es_add_documents_missing_key_witness :
  Exists (fun doc => ~ has_required_keys doc)
    [example_es_document;
     Elasticsearch.mkDocument None "two" {[ "creation_date" := Elasticsearch.MStr "2024" ]}]
  /\ exists before doc after present key absent w',
       [example_es_document;
        Elasticsearch.mkDocument None "two"
          {[ "creation_date" := Elasticsearch.MStr "2024" ]}]
       = before ++ doc :: after
       /\ Forall has_required_keys before
       /\ required_keys = present ++ key :: absent
       /\ Forall (fun k => is_Some (Elasticsearch.get_metadata doc !! k)) present
       /\ Elasticsearch.get_metadata doc !! key = None
       /\ Elasticsearch.add_documents example_uuid4 length_embedding example_es_store
            [example_es_document;
             Elasticsearch.mkDocument None "two"
               {[ "creation_date" := Elasticsearch.MStr "2024" ]}]
            true (Elasticsearch.mkWorld ∅ 0 [])
          = (inl (Elasticsearch.KeyError key), w')
       /\ Elasticsearch.calls w' = []
       /\ Elasticsearch.indices w'
          = {[ "idx" := Elasticsearch.index_mappings example_es_store 3 ]}.
Proof.
  assert (Exists (fun doc => ~ has_required_keys doc)
            [example_es_document;
             Elasticsearch.mkDocument None "two"
               {[ "creation_date" := Elasticsearch.MStr "2024" ]}]) as Hex.
  { apply Exists_cons_tl, Exists_cons_hd. intros Hkeys.
    apply Forall_cons in Hkeys as [_ Hkeys].
    apply Forall_cons in Hkeys as [[v Hv] _]. simpl in Hv.
    rewrite lookup_singleton_ne in Hv; [discriminate Hv | discriminate]. }
  split; [exact Hex|].
  exact (es_add_documents_missing_key example_uuid4 length_embedding example_es_store
           [example_es_document;
            Elasticsearch.mkDocument None "two"
              {[ "creation_date" := Elasticsearch.MStr "2024" ]}]
           true (Elasticsearch.mkWorld ∅ 0 []) Hex).
Defined.

(** The example document, whose file type is empty and whose page is 0. *)
Lemma es_add_documents_bulk_witness :
  ((true = true ->
    (Elasticsearch._create_index_if_not_exists example_es_store
       (@Elasticsearch.mkWorld Z ∅ 0 [])).1 = inr tt)
   /\ Forall has_required_keys [example_es_document])
  /\ exists actions w',
       Elasticsearch.add_documents example_uuid4 length_embedding example_es_store
         [example_es_document] true (Elasticsearch.mkWorld ∅ 0 [])
       = (inr tt, w')
       /\ Elasticsearch.calls w' = [Elasticsearch.Bulk actions 200]
       /\ length actions = 1%nat.
Proof.
  assert (Forall has_required_keys [example_es_document]) as Hall.
  { constructor; [|constructor].
    unfold has_required_keys, required_keys, example_es_document. simpl.
    repeat constructor; eexists; by simplify_map_eq. }
  assert (true = true ->
          (Elasticsearch._create_index_if_not_exists example_es_store
             (@Elasticsearch.mkWorld Z ∅ 0 [])).1 = inr tt) as Hcreate.
  { intros _. reflexivity. }
  split; [split; [exact Hcreate | exact Hall]|].
  destruct (es_add_documents_bulk example_uuid4 length_embedding example_es_store
              [example_es_document] true (Elasticsearch.mkWorld ∅ 0 [])
              Hcreate Hall)
    as (actions & w' & Hrun & Hcalls & Hlen & _).
  exists actions, w'. split; [exact Hrun|]. split; [exact Hcalls | exact Hlen].
Defined.

(** One hit with a text and a metadata mapping. *)
Lemma es_query_hits_witness :
  Forall (fun hit => is_Some (Elasticsearch._source hit !! "text")
                     /\ is_Some (Elasticsearch._source hit !! "metadata"))
    (example_search_text "idx"
       {| Elasticsearch.field := "embedding";
          Elasticsearch.query_vector := length_embedding "q";
          Elasticsearch.k := 4;
          Elasticsearch.num_candidates := 4 * 10 |} 4 ["embedding"])
  /\ exists found,
       (Elasticsearch.query length_embedding example_search_text example_es_store "q" 4
          (Elasticsearch.mkWorld ∅ 0 [])).1 = inr found
       /\ length found = 1%nat.
Proof.
  assert (Forall (fun hit : @Elasticsearch.Hit Z Z =>
                    is_Some (Elasticsearch._source hit !! "text")
                    /\ is_Some (Elasticsearch._source hit !! "metadata"))
            (example_search_text "idx"
               {| Elasticsearch.field := "embedding";
                  Elasticsearch.query_vector := length_embedding "q";
                  Elasticsearch.k := 4;
                  Elasticsearch.num_candidates := 4 * 10 |} 4 ["embedding"])) as Hall.
  { unfold example_search_text. repeat constructor; eexists; by simplify_map_eq. }
  split; [exact Hall|].
  destruct (es_query_hits length_embedding example_search_text example_es_store "q" 4
              (Elasticsearch.mkWorld ∅ 0 []) Hall)
    as (found & Hrun & Hfound).
  exists found. split; [by rewrite Hrun|].
  symmetry. by apply (Forall2_length _ _ _ Hfound).
Defined.

(** A hit filed under [content], the text field of the store. *)
Lemma es_query_reads_text_key_witness :
  (example_search "idx"
     {| Elasticsearch.field := "embedding";
        Elasticsearch.query_vector := length_embedding "q";
        Elasticsearch.k := 4;
        Elasticsearch.num_candidates := 4 * 10 |} 4 ["embedding"]
   = [Elasticsearch.mkHit "id1" {[ "content" := Elasticsearch.Text "one" ]} 1]
   /\ ({[ "content" := Elasticsearch.Text "one" ]} : gmap string (@Elasticsearch.Value Z))
        !! "text" = None)
  /\ (Elasticsearch.query length_embedding example_search example_es_store "q" 4
        (Elasticsearch.mkWorld ∅ 0 [])).1
     = inl (Elasticsearch.KeyError "text").
Proof.
  split; [split; [reflexivity | by simplify_map_eq]|].
  apply (es_query_reads_text_key length_embedding example_search example_es_store "q" 4
           (Elasticsearch.mkWorld ∅ 0 [])
           (Elasticsearch.mkHit "id1" {[ "content" := Elasticsearch.Text "one" ]} 1) []);
    [reflexivity | by simplify_map_eq].
Defined.
